(** * Dependency resolution and caching (skypack/src/index.ts and the
      freshness-aware read path): a shallow embedding and its properties.

    The asynchronous functions of the source are embedded as state-passing
    computations over a [World] that holds what the source keeps outside
    its arguments: the in-process response memo, the persistent cache, the
    console, the clock, and a log of the calls made to the CDN client and
    of the requests that reached the network.  A rejected promise is a
    [Throw].  A call that runs alone is a function of the world it starts
    in ([M]); the resolutions that [generateImportMap] runs together are
    tasks that give way to one another at each [await] ([Proc]), and the
    two are related by [alone_resolveDependencyByName]. *)

From Stdlib Require Import ZArith String Ascii.
From stdpp Require Import base option list gmap strings.

Local Open Scope Z_scope.

(** ** JavaScript string and array primitives used by the source *)

Module JS.

(** [s.startsWith(p)] *)
Definition startsWith (s p : string) : bool := String.prefix p s.

(** [s.includes(needle)] *)
Fixpoint includes (s needle : string) : bool :=
  String.prefix needle s ||
  match s with
  | EmptyString => false
  | String _ s' => includes s' needle
  end.

(** [s.split(sep)] for a one-character separator, as the pair of the
    first element (there always is one) and the remaining ones. *)
Fixpoint split1 (sep : ascii) (s : string) : string * list string :=
  match s with
  | EmptyString => (EmptyString, [])
  | String c s' =>
      let '(hd, tl) := split1 sep s' in
      if Ascii.eqb c sep then (EmptyString, hd :: tl) else (String c hd, tl)
  end.

(** Truthiness of a value typed [string] that may be [undefined]. *)
Definition truthy (v : option string) : bool :=
  match v with
  | Some s => negb (String.eqb s EmptyString)
  | None => false
  end.

(** [v === s] for a string literal [s]. *)
Definition strictEq (v : option string) (s : string) : bool :=
  match v with
  | Some x => String.eqb x s
  | None => false
  end.

(** A value interpolated into a template literal: [`${v}`]. *)
Definition interpolate (v : option string) : string :=
  match v with
  | Some s => s
  | None => "undefined"
  end.

(** [arr.filter(Boolean)] on an array of possibly undefined strings. *)
Definition filterBoolean (l : list (option string)) : list string :=
  omap (λ v, if truthy v then v else None) l.

(** [Array.prototype.join(sep)]. *)
Fixpoint join (sep : string) (l : list string) : string :=
  match l with
  | [] => EmptyString
  | [x] => x
  | x :: l' => x +:+ sep +:+ join sep l'
  end.

(** An array interpolated into a template literal: [`${arr}`] calls
    [Array.prototype.toString], which is [join(",")]. *)
Definition interpolateArray (l : list string) : string := join "," l.

(** [v?.includes(needle)] used as a condition. *)
Definition optIncludes (v : option string) (needle : string) : bool :=
  match v with
  | Some s => includes s needle
  | None => false
  end.

End JS.

(** ** Data model *)

(** [IncomingHttpHeaders]: header name to value. *)
Abbreviation Headers := (gmap string string).

(** got's [Response], restricted to the fields the source reads. *)
Record Response := mkResponse {
  statusCode : Z;
  headers : Headers;
  body : string;
}.

(** The metadata object stored with a cache entry.  Every property is
    optional at run time: [resolveDependencyByUrl] writes
    [{installUrl, typesUrl}] and reads [pinnedUrl]; [fetchCDN] writes and
    reads [{headers, statusCode, freshUntil}].  [freshUntil] is kept as
    the time value (milliseconds) of the stored date string, [None] when
    the property is missing ([new Date(undefined)] is an invalid date). *)
Record Metadata := mkMetadata {
  meta_pinnedUrl : option string;
  meta_installUrl : option string;
  meta_typesUrl : option string;
  meta_headers : option Headers;
  meta_statusCode : option Z;
  meta_freshUntil : option Z;
}.

(** What [cacache.get] resolves to. *)
Record CacheEntry := mkCacheEntry {
  data : string;
  metadata : Metadata;
}.

(** [ImportMap]: [{imports: {[specifier]: url}}].  The values are declared
    [string]; an assignment of [undefined] is representable. *)
Record ImportMap := mkImportMap {
  imports : gmap string (option string);
}.

(** [{body, pinnedUrl}], the result of a resolution.  [pinnedUrl] is
    declared [string] and may be [undefined] at run time. *)
Record Resolution := mkResolution {
  res_body : string;
  pinnedUrl : option string;
}.

(** The errors thrown by the source, by the message they carry. *)
Inductive Error : Type :=
  | ReactWorkaroundError
      (* React workaround packages no longer needed! ... *)
  | ComplexSemverError (installSpecifier packageSemver : string)
      (* warn(spec): Can't fetch complex semver "semver" from remote CDN. *)
  | FailedToResolve (status : Z) (installUrl body : string)
      (* Failed to resolve [status]: installUrl (body) *)
  | FailedToBuild (installSpecifier packageSemver : string)
      (* Failed to build: spec@semver *)
  | ImportUrlExpected
      (* X-Import-URL header expected, but none received. *)
  | UnexpectedResponse (status : Z) (url : string)
      (* Unexpected response [status]: url *)
  | RequestError (url : string)
      (* got rejected: the request itself failed *)
  | NotAFunction (callee : string)
      (* TypeError: callee is not a function *).

(** Lines written to the console. *)
Inductive ConsoleLine : Type :=
  | WarnLatest (installSpecifier : string)
  | WarnFailedToResolve (status : Z) (installUrl body : string)
  | LogBuilding (installSpecifier packageSemver : string).

(** The state outside the arguments.  [fetched] and [requests] grow at
    the head. *)
Record World := mkWorld {
  inMemoryCDNCache : gmap string Response;
  resourceCache : gmap string CacheEntry;
  console : list ConsoleLine;
  fetched : list string;   (* URLs fetchCDNResource was called for *)
  requests : list string;  (* URLs got requested over the network *)
  now : Z;                 (* the clock, in milliseconds *)
}.

(** ** Computations: state passing with exceptions *)

Inductive Completion (A : Type) : Type :=
  | Return (a : A)
  | Throw (e : Error).
Arguments Return {A} a.
Arguments Throw {A} e.

Definition M (A : Type) : Type := World → Completion A * World.

#[global] Instance M_ret : MRet M := λ A a w, (Return a, w).
#[global] Instance M_bind : MBind M := λ A B f m w,
  match m w with
  | (Return a, w') => f a w'
  | (Throw e, w') => (Throw e, w')
  end.

Definition throw {A} (e : Error) : M A := λ w, (Throw e, w).

Definition when (b : bool) (m : M ()) : M () := if b then m else mret ().

(** The world after a line was written to the console. *)
Definition logged (l : ConsoleLine) (w : World) : World :=
  mkWorld (inMemoryCDNCache w) (resourceCache w) (l :: console w)
          (fetched w) (requests w) (now w).

Definition consoleWrite (l : ConsoleLine) : M () := λ w, (Return (), logged l w).

(** The world after the warning of index.ts, line 62, which is given for
    the range "latest". *)
Definition warnedLatest (installSpecifier packageSemver : string) (w : World) : World :=
  if String.eqb packageSemver "latest"
  then logged (WarnLatest installSpecifier) w else w.

(** An absolute URL on the origin: a defined string that starts with it. *)
Definition originQualified (origin : string) (v : option string) : bool :=
  match v with
  | Some url => JS.startsWith url origin
  | None => false
  end.

(** The number of "Building ..." lines on a console. *)
Definition isBuilding (l : ConsoleLine) : bool :=
  match l with LogBuilding _ _ => true | _ => false end.

Definition buildingLines (c : list ConsoleLine) : nat :=
  length (List.filter isBuilding c).

(** [cacache.get(RESOURCE_CACHE, key).catch(() => null)] *)
Definition cacacheGet (key : string) : M (option CacheEntry) := λ w,
  (Return (resourceCache w !! key), w).

(** [cacache.put(RESOURCE_CACHE, key, data, {metadata})], when the write
    succeeds. *)
Definition cacachePut (key : string) (d : string) (md : Metadata) : M () := λ w,
  (Return (),
   mkWorld (inMemoryCDNCache w) (<[key := mkCacheEntry d md]> (resourceCache w))
           (console w) (fetched w) (requests w) (now w)).

Definition memoGet (key : string) : M (option Response) := λ w,
  (Return (inMemoryCDNCache w !! key), w).

Definition memoSet (key : string) (r : Response) : M () := λ w,
  (Return (),
   mkWorld (<[key := r]> (inMemoryCDNCache w)) (resourceCache w)
           (console w) (fetched w) (requests w) (now w)).

Definition noteFetched (url : string) : M () := λ w,
  (Return (),
   mkWorld (inMemoryCDNCache w) (resourceCache w) (console w)
           (url :: fetched w) (requests w) (now w)).

Definition readClock : M Z := λ w, (Return (now w), w).

(** ** Asynchronous computations that run together

    On the one thread of the event loop a task runs without interruption
    from one [await] to the next, and other tasks may run while it waits.
    A [Proc] is a task at such a point: settled, or suspended at an
    [await]; [effect] is then what the code between this [await] and the
    next one does to the world the task is resumed in, and [next] is the
    task at the next point. *)

Inductive Proc (A : Type) : Type :=
  | Settled (c : Completion A)
  | Suspended (effect : World → World) (next : World → Proc A).
Arguments Settled {A} c.
Arguments Suspended {A} effect next.

(** An asynchronous computation: started in a world, it runs to its first
    [await]. *)
Definition P (A : Type) : Type := World → Proc A * World.

(** The task [p], followed by [k] on the value it returns. *)
Fixpoint andThen {A B} (p : Proc A) (k : A → P B) (w : World) : Proc B * World :=
  match p with
  | Settled (Return a) => k a w
  | Settled (Throw e) => (Settled (Throw e), w)
  | Suspended effect next =>
      (Suspended (λ w', (andThen (next w') k (effect w')).2)
                 (λ w', (andThen (next w') k (effect w')).1), w)
  end.

#[global] Instance P_ret : MRet P := λ A a w, (Settled (Return a), w).
#[global] Instance P_bind : MBind P := λ A B k m w,
  let '(p, w') := m w in andThen p k w'.

(** Code that does not wait. *)
Definition sync {A} (m : M A) : P A := λ w,
  let '(c, w') := m w in (Settled c, w').

(** [await] of an operation that the process leaves to the system (a read
    or a write of the cache on disk): the task waits, and the operation
    has taken effect, in one step, when the task is resumed. *)
Definition awaitIO {A} (m : M A) : P A := λ w,
  (Suspended (λ w', (m w').2) (λ w', Settled (m w').1), w).

(** One turn of the event loop. *)
Definition tick : P () := awaitIO (mret ()).

(** [await f(...)], and [return f(...)] in an asynchronous function, for
    an asynchronous function [f] of this file: the callee runs at once to
    its first [await]; when it has returned, the caller goes on in a later
    turn.  A rejection is passed on. *)
Definition await {A} (callee : P A) : P A := a ← callee ; tick ;; mret a.

(** A task that runs alone: no other task runs while it waits. *)
Fixpoint runAlone {A} (p : Proc A) (w : World) : Completion A * World :=
  match p with
  | Settled c => (c, w)
  | Suspended effect next => runAlone (next w) (effect w)
  end.

Definition alone {A} (m : P A) : M A := λ w,
  let '(p, w') := m w in runAlone p w'.

(** Tasks that do the same: they settle alike, or wait alike, with the
    same effect and tasks that do the same at the next point, whatever
    the world they are resumed in. *)
Fixpoint similar {A} (p q : Proc A) : Prop :=
  match p, q with
  | Settled c, Settled c' => c = c'
  | Suspended effect next, Suspended effect' next' =>
      ∀ w, effect w = effect' w ∧ similar (next w) (next' w)
  | _, _ => False
  end.

(** A task that returns no value of [bad], whatever the worlds it is
    resumed in. *)
Fixpoint avoids {A} (bad : A → Prop) (p : Proc A) : Prop :=
  match p with
  | Settled (Return a) => ¬ bad a
  | Settled (Throw _) => True
  | Suspended _ next => ∀ w, avoids bad (next w)
  end.

(** A task that, each time it is resumed in the world [w], leaves [w] as
    it is, and that returns [a]. *)
Fixpoint quiet {A} (w : World) (a : A) (p : Proc A) : Prop :=
  match p with
  | Settled c => c = Return a
  | Suspended effect next => effect w = w ∧ quiet w a (next w)
  end.

(** A computation that is such a task from its start in [w]. *)
Definition quietly {A} (m : P A) (w : World) (a : A) : Prop :=
  (m w).2 = w ∧ quiet w a (m w).1.

(** ** The install-time path: skypack/src/index.ts *)

(** What the source takes from outside: the constants imported from
    './util', and the network as seen through [got] with
    [throwHttpErrors: false]: the answer to the request number [n]
    (counting from 0) for [url], [None] when the request itself fails and
    [got] rejects, and the time the request number [n] takes. *)
Class Env := mkEnv {
  PIKA_CDN : string;        (* the CDN origin of index.ts *)
  SKYPACK_ORIGIN : string;  (* the CDN origin of fetchCDN *)
  network : nat → string → option Response;
  latency : nat → Z;
}.

(** The names every plain object inherits from [Object.prototype]: each
    reads as a function, and ["__proto__"] as the prototype object. *)
Definition objectPrototypeNames : list string :=
  [ "constructor"; "__defineGetter__"; "__defineSetter__"; "hasOwnProperty";
    "__lookupGetter__"; "__lookupSetter__"; "isPrototypeOf";
    "propertyIsEnumerable"; "toString"; "valueOf"; "__proto__";
    "toLocaleString" ].

(** What reading [object[name]] finds on an object that maps strings to
    strings: a property of its own, one inherited from
    [Object.prototype], or nothing ([undefined]). *)
Inductive PropertyRead : Type :=
  | Own (v : string)
  | Inherited (name : string)
  | Absent.

(** The error of the first task, in a record of outcomes, that failed. *)
Fixpoint firstError (outcomes : list (string * Completion Resolution)) : option Error :=
  match outcomes with
  | [] => None
  | (_, Throw e) :: _ => Some e
  | (_, Return _) :: rest => firstError rest
  end.

Section Install.

Context `{Env}.

(** The world after a request for [url] went out and was answered. *)
Definition requested (url : string) (w : World) : World :=
  mkWorld (inMemoryCDNCache w) (resourceCache w) (console w)
          (fetched w) (url :: requests w)
          (now w + latency (length (requests w))).

Definition got (url : string) : M Response := λ w,
  match network (length (requests w)) url with
  | Some r => (Return r, requested url w)
  | None => (Throw (RequestError url), requested url w)
  end.

(** [if (!url.startsWith(PIKA_CDN)) url = PIKA_CDN + url] *)
Definition qualify (origin url : string) : string :=
  if JS.startsWith url origin then url else origin +:+ url.

(** index.ts, lines 11-30.  The optional [responseType] is passed by no
    caller in this file and is left out.  [noteFetched] is bookkeeping:
    it records the call and changes nothing the source reads. *)
Definition fetchCDNResource (resourceUrl : string) : M Response :=
  let resourceUrl := qualify PIKA_CDN resourceUrl in
  noteFetched resourceUrl ;;
  memo ← memoGet resourceUrl ;
  match memo with
  | Some response => mret response
  | None =>
      response ← got resourceUrl ;
      when (JS.optIncludes (headers response !! "cache-control") "max-age=")
           (memoSet resourceUrl response) ;;
      mret response
  end.

(** index.ts, lines 136-165. *)
Definition resolveDependencyByUrl (installUrl : string) : M Resolution :=
  let installUrl := qualify PIKA_CDN installUrl in
  cachedResult ← cacacheGet installUrl ;
  match cachedResult with
  | Some cachedResult =>
      mret (mkResolution (data cachedResult)
                         (meta_pinnedUrl (metadata cachedResult)))
  | None =>
      response ← fetchCDNResource installUrl ;
      if negb (statusCode response =? 200) then
        consoleWrite (WarnFailedToResolve (statusCode response) installUrl
                                          (body response)) ;;
        throw (FailedToResolve (statusCode response) installUrl (body response))
      else
        let typesUrlPath := headers response !! "x-typescript-types" in
        let typesUrl :=
          if JS.truthy typesUrlPath
          then Some (PIKA_CDN +:+ JS.interpolate typesUrlPath)
          else typesUrlPath in
        when (JS.optIncludes (headers response !! "cache-control") "max-age=")
             (cacachePut installUrl (body response)
                (mkMetadata None (Some installUrl) typesUrl None None None)) ;;
        mret (mkResolution (body response) (Some installUrl))
  end.

(** index.ts, lines 78-87: the lookup URL of a specifier and a semver
    range. *)
Definition lookupUrl (installSpecifier packageSemver : string) : string :=
  let '(specPart1, rest) := JS.split1 "/" installSpecifier in
  let specPart2 := head rest in
  let specParts := tail rest in
  if JS.startsWith specPart1 "@" then
    PIKA_CDN +:+ "/" +:+ specPart1 +:+ "/" +:+ JS.interpolate specPart2
      +:+ "@" +:+ packageSemver
      +:+ JS.interpolateArray
            ((λ p, "/" +:+ p) <$> JS.filterBoolean (Some <$> specParts))
  else
    PIKA_CDN +:+ "/" +:+ specPart1 +:+ "@" +:+ packageSemver
      +:+ JS.interpolateArray
            ((λ p, "/" +:+ p)
               <$> JS.filterBoolean (specPart2 :: (Some <$> specParts))).

(** [lockfile && lockfile.imports[installSpecifier]], when truthy. *)
Definition lockfilePin (lockfile : option ImportMap) (installSpecifier : string)
  : option string :=
  match lockfile with
  | Some lockfile =>
      match imports lockfile !! installSpecifier with
      | Some v => if JS.truthy v then v else None
      | None => None
      end
  | None => None
  end.

(** Whether [lockfile.imports[installSpecifier]] reads a property that
    [imports] does not have of its own and inherits: a truthy value that
    is not a string. *)
Definition inheritedPin (lockfile : option ImportMap) (installSpecifier : string)
  : bool :=
  match lockfile with
  | Some lockfile =>
      match imports lockfile !! installSpecifier with
      | Some _ => false
      | None => bool_decide (installSpecifier ∈ objectPrototypeNames)
      end
  | None => false
  end.

(** The two validations of the semver range, lines 66 and 71. *)
Definition isWorkaround (packageSemver : string) : bool :=
  JS.startsWith packageSemver "npm:@reactesm"
  || JS.startsWith packageSemver "npm:@pika/react".

Definition isComplex (packageSemver : string) : bool :=
  JS.includes packageSemver " " || JS.includes packageSemver ":".

(** How one activation of [resolveDependencyByName] ends: with a result,
    or with the tail call
    [return resolveDependencyByName(installSpecifier, packageSemver, lockfile, false)]. *)
Inductive Activation : Type :=
  | Done (r : Resolution)
  | CallAgain.

(** index.ts, lines 41-125: the body of [resolveDependencyByName], up to
    its tail call. *)
Definition resolveActivation (installSpecifier packageSemver : string)
    (lockfile : option ImportMap) (canRetry : bool) : M Activation :=
  match lockfilePin lockfile installSpecifier with
  | Some installUrl =>
      (* installUrlType = 'pin' *)
      r ← resolveDependencyByUrl installUrl ; mret (Done r)
  | None =>
      if inheritedPin lockfile installSpecifier then
        (* the test of line 57 holds of an inherited property: the pin path
           is taken with a value that is not a string, and
           [resolveDependencyByUrl] throws at its first line, line 139 *)
        throw (NotAFunction "installUrl.startsWith")
      else
      when (String.eqb packageSemver "latest")
           (consoleWrite (WarnLatest installSpecifier)) ;;
      if isWorkaround packageSemver then
        throw ReactWorkaroundError
      else if isComplex packageSemver then
        throw (ComplexSemverError installSpecifier packageSemver)
      else
        let installUrl := lookupUrl installSpecifier packageSemver in
        (* installUrlType = 'lookup' *)
        response ← fetchCDNResource installUrl ;
        if negb (statusCode response =? 200) then
          throw (FailedToResolve (statusCode response) installUrl (body response))
        else
          let importUrlPath := headers response !! "x-import-url" in
          let pinnedUrlPath := headers response !! "x-pinned-url" in
          let buildStatus := headers response !! "x-import-status" in
          if JS.strictEq buildStatus "SUCCESS" then
            mret (Done (mkResolution (body response)
                          (Some (PIKA_CDN +:+ JS.interpolate pinnedUrlPath))))
          else if negb canRetry || JS.strictEq buildStatus "FAIL" then
            throw (FailedToBuild installSpecifier packageSemver)
          else
            consoleWrite (LogBuilding installSpecifier packageSemver) ;;
            if negb (JS.truthy importUrlPath) then
              throw ImportUrlExpected
            else
              poll ← fetchCDNResource (JS.interpolate importUrlPath) ;
              if negb (statusCode poll =? 200) then
                throw (UnexpectedResponse (statusCode poll)
                         (PIKA_CDN +:+ JS.interpolate importUrlPath))
              else
                mret CallAgain
  end.

(** [resolveDependencyByName], with the depth of its recursion bounded
    by [fuel]: [None] when the bound is reached. *)
Fixpoint resolveDependencyByName_fuel (fuel : nat)
    (installSpecifier packageSemver : string)
    (lockfile : option ImportMap) (canRetry : bool) (w : World)
  : option (Completion Resolution * World) :=
  match fuel with
  | O => None
  | S fuel =>
      match resolveActivation installSpecifier packageSemver lockfile canRetry w with
      | (Return (Done r), w') => Some (Return r, w')
      | (Return CallAgain, w') =>
          resolveDependencyByName_fuel fuel installSpecifier packageSemver
                                       lockfile false w'
      | (Throw e, w') => Some (Throw e, w')
      end
  end.

(** [resolveDependencyByName]: two activations are enough (see
    [resolveDependencyByName_fuel_enough]), so the default is never
    taken. *)
Definition resolveDependencyByName (installSpecifier packageSemver : string)
    (lockfile : option ImportMap) (canRetry : bool) : M Resolution := λ w,
  default (Throw (FailedToBuild installSpecifier packageSemver), w)
    (resolveDependencyByName_fuel 2 installSpecifier packageSemver
                                  lockfile canRetry w).

(** *** The same functions as tasks

    The functions above, with the points at which they wait: what
    [generateImportMap] runs together. *)

(** The world after a request for [url] went out. *)
Definition sent (url : string) (w : World) : World :=
  mkWorld (inMemoryCDNCache w) (resourceCache w) (console w)
          (fetched w) (url :: requests w) (now w).

(** The world after the answer to the request number [n], which went out
    at the time [t], came in: the clock is at [t + latency n] at least. *)
Definition answered (n : nat) (t : Z) (w : World) : World :=
  mkWorld (inMemoryCDNCache w) (resourceCache w) (console w)
          (fetched w) (requests w) (Z.max (now w) (t + latency n)).

(** [await got(url, ...)]: the request goes out at the call; the task
    waits for the answer. *)
Definition gotP (url : string) : P Response := λ w,
  let n := length (requests w) in
  (Suspended (answered n (now w))
             (λ _, Settled (match network n url with
                            | Some r => Return r
                            | None => Throw (RequestError url)
                            end)),
   sent url w).

(** index.ts, lines 11-30. *)
Definition fetchCDNResourceP (resourceUrl : string) : P Response :=
  let resourceUrl := qualify PIKA_CDN resourceUrl in
  sync (noteFetched resourceUrl) ;;
  memo ← sync (memoGet resourceUrl) ;
  match memo with
  | Some response => mret response
  | None =>
      response ← gotP resourceUrl ;
      sync (when (JS.optIncludes (headers response !! "cache-control") "max-age=")
                 (memoSet resourceUrl response)) ;;
      mret response
  end.

(** index.ts, lines 136-165. *)
Definition resolveDependencyByUrlP (installUrl : string) : P Resolution :=
  let installUrl := qualify PIKA_CDN installUrl in
  cachedResult ← awaitIO (cacacheGet installUrl) ;
  match cachedResult with
  | Some cachedResult =>
      mret (mkResolution (data cachedResult)
                         (meta_pinnedUrl (metadata cachedResult)))
  | None =>
      response ← await (fetchCDNResourceP installUrl) ;
      if negb (statusCode response =? 200) then
        sync (consoleWrite (WarnFailedToResolve (statusCode response) installUrl
                                                (body response))) ;;
        sync (throw (FailedToResolve (statusCode response) installUrl (body response)))
      else
        let typesUrlPath := headers response !! "x-typescript-types" in
        let typesUrl :=
          if JS.truthy typesUrlPath
          then Some (PIKA_CDN +:+ JS.interpolate typesUrlPath)
          else typesUrlPath in
        (if JS.optIncludes (headers response !! "cache-control") "max-age="
         then awaitIO (cacachePut installUrl (body response)
                         (mkMetadata None (Some installUrl) typesUrl None None None))
         else mret ()) ;;
        mret (mkResolution (body response) (Some installUrl))
  end.

(** index.ts, lines 41-125: the body of [resolveDependencyByName], up to
    its tail call. *)
Definition resolveActivationP (installSpecifier packageSemver : string)
    (lockfile : option ImportMap) (canRetry : bool) : P Activation :=
  match lockfilePin lockfile installSpecifier with
  | Some installUrl =>
      r ← await (resolveDependencyByUrlP installUrl) ; mret (Done r)
  | None =>
      if inheritedPin lockfile installSpecifier then
        sync (throw (NotAFunction "installUrl.startsWith"))
      else
      sync (when (String.eqb packageSemver "latest")
                 (consoleWrite (WarnLatest installSpecifier))) ;;
      if isWorkaround packageSemver then
        sync (throw ReactWorkaroundError)
      else if isComplex packageSemver then
        sync (throw (ComplexSemverError installSpecifier packageSemver))
      else
        let installUrl := lookupUrl installSpecifier packageSemver in
        response ← await (fetchCDNResourceP installUrl) ;
        if negb (statusCode response =? 200) then
          sync (throw (FailedToResolve (statusCode response) installUrl
                                       (body response)))
        else
          let importUrlPath := headers response !! "x-import-url" in
          let pinnedUrlPath := headers response !! "x-pinned-url" in
          let buildStatus := headers response !! "x-import-status" in
          if JS.strictEq buildStatus "SUCCESS" then
            mret (Done (mkResolution (body response)
                          (Some (PIKA_CDN +:+ JS.interpolate pinnedUrlPath))))
          else if negb canRetry || JS.strictEq buildStatus "FAIL" then
            sync (throw (FailedToBuild installSpecifier packageSemver))
          else
            sync (consoleWrite (LogBuilding installSpecifier packageSemver)) ;;
            if negb (JS.truthy importUrlPath) then
              sync (throw ImportUrlExpected)
            else
              poll ← await (fetchCDNResourceP (JS.interpolate importUrlPath)) ;
              if negb (statusCode poll =? 200) then
                sync (throw (UnexpectedResponse (statusCode poll)
                               (PIKA_CDN +:+ JS.interpolate importUrlPath)))
              else
                mret CallAgain
  end.

(** [resolveDependencyByName] as a task, with the depth of its recursion
    bounded by [fuel]; the bound is not reached with [fuel >= 2], as for
    [resolveDependencyByName_fuel]. *)
Fixpoint resolveDependencyByNameP_fuel (fuel : nat)
    (installSpecifier packageSemver : string)
    (lockfile : option ImportMap) (canRetry : bool) : P Resolution :=
  match fuel with
  | O => sync (throw (FailedToBuild installSpecifier packageSemver))
  | S fuel =>
      a ← resolveActivationP installSpecifier packageSemver lockfile canRetry ;
      match a with
      | Done r => mret r
      | CallAgain =>
          await (resolveDependencyByNameP_fuel fuel installSpecifier packageSemver
                                               lockfile false)
      end
  end.

Definition resolveDependencyByNameP (installSpecifier packageSemver : string)
    (lockfile : option ImportMap) (canRetry : bool) : P Resolution :=
  resolveDependencyByNameP_fuel 2 installSpecifier packageSemver lockfile canRetry.

(** *** The lockfile generator

    [imports[key] = value], for a value that is a string or [undefined],
    on an object created by a literal.  It adds or replaces the own
    property [key], except for ["__proto__"]: that name is the accessor
    inherited from [Object.prototype], whose setter ignores such a value,
    and no property is added. *)
Definition assign (m : ImportMap) (key : string) (value : option string)
  : ImportMap :=
  if String.eqb key "__proto__" then m
  else mkImportMap (<[key := value]> (imports m)).

(** [generateImportMap] while its queue runs: the world; the two
    variables the tasks share, [newLockfile] and [resolutionError]; the
    entries whose task has not been started, in the order they were
    added; the tasks that are running, each at the point where it waits;
    and, as a record of the run, the outcome of each task that has ended,
    the earliest first. *)
Record Generation := mkGeneration {
  gen_world : World;
  newLockfile : ImportMap;
  resolutionError : option Error;
  queued : list (string * string);
  running : list (string * Proc Resolution);
  settled : list (string * Completion Resolution);
}.

(** [new PQueue({concurrency: 16})] *)
Definition concurrency : nat := 16.

(** The end of a task, lines 183 and 185: what follows
    [await resolveDependencyByName(...)] when the resolution has
    returned, and the [catch] when it has thrown. *)
Definition taskEnd (installSpecifier : string) (c : Completion Resolution)
    (g : Generation) : Generation :=
  match c with
  | Return r =>
      mkGeneration (gen_world g)
        (assign (newLockfile g) installSpecifier (pinnedUrl r))
        (resolutionError g)
        (queued g) (running g) (settled g ++ [(installSpecifier, c)])
  | Throw err =>
      mkGeneration (gen_world g) (newLockfile g)
        (match resolutionError g with Some e => Some e | None => Some err end)
        (queued g) (running g) (settled g ++ [(installSpecifier, c)])
  end.

(** What runs next.  The queue (p-queue) and the event loop decide it, and
    neither is among the sources: every order is considered in which the
    tasks are started in the order they were added, at most [concurrency]
    of them are running, and a running task goes from one [await] to the
    next without interruption.  The order of p-queue, which starts a task
    as soon as fewer than [concurrency] are running (the first 16 inside
    the loop of line 175, before any of them goes on), is one of them. *)
Inductive Pick : Type :=
  | Start             (* the queue starts the task of its first entry *)
  | Resume (i : nat)  (* the running task number [i] goes on *).

(** One step.  [Start] calls [resolveDependencyByName] for the first
    entry of the queue, which runs to its first [await]; it does nothing
    when [concurrency] tasks are running or the queue is empty.
    [Resume i] lets the running task [i] go on to its next [await], or,
    when its resolution has settled, to its end; it does nothing when
    there is no such task. *)
Definition step (lockfile : option ImportMap) (g : Generation) (pick : Pick)
  : Generation :=
  match pick with
  | Start =>
      match queued g with
      | (installSpecifier, installSemver) :: rest =>
          if (length (running g) <? concurrency)%nat then
            let '(p, w') := resolveDependencyByNameP installSpecifier installSemver
                                                     lockfile true (gen_world g) in
            mkGeneration w' (newLockfile g) (resolutionError g) rest
                         (running g ++ [(installSpecifier, p)]) (settled g)
          else g
      | [] => g
      end
  | Resume i =>
      match running g !! i with
      | Some (installSpecifier, Settled c) =>
          taskEnd installSpecifier c
            (mkGeneration (gen_world g) (newLockfile g) (resolutionError g)
                          (queued g) (delete i (running g)) (settled g))
      | Some (installSpecifier, Suspended effect next) =>
          mkGeneration (effect (gen_world g)) (newLockfile g) (resolutionError g)
                       (queued g)
                       (<[i := (installSpecifier, next (gen_world g))]> (running g))
                       (settled g)
      | None => g
      end
  end.

(** Lines 171-188, and the queue run by a schedule: every entry of
    [Object.entries(webDependencies)] is added to the queue. *)
Definition runQueue (webDependencies : list (string * string))
    (lockfile : option ImportMap) (schedule : list Pick) (w : World) : Generation :=
  foldl (step lockfile)
        (mkGeneration w (mkImportMap ∅) None webDependencies [] [])
        schedule.

(** [downloadQueue.onIdle()]: nothing is queued and nothing is running. *)
Definition idle (g : Generation) : bool :=
  match queued g, running g with
  | [], [] => true
  | _, _ => false
  end.

(** index.ts, lines 167-196, under a schedule: what the call returns or
    throws once the queue is idle, and [None] when the schedule stops
    before that. *)
Definition generateImportMap (webDependencies : list (string * string))
    (lockfile : option ImportMap) (schedule : list Pick) (w : World)
  : option (Completion ImportMap * World) :=
  let g := runQueue webDependencies lockfile schedule w in
  if idle g then
    Some (match resolutionError g with
          | Some e => Throw e
          | None => Return (newLockfile g)
          end, gen_world g)
  else None.

(** A point that a task reaches from the start of [m]. *)
Inductive arises {A} (m : P A) : Proc A → Prop :=
  | arises_start w : arises m (m w).1
  | arises_resume effect next w :
      arises m (Suspended effect next) → arises m (next w).

(** The specifiers of the tasks that have ended, of those that are
    running, and of the entries still queued. *)
Definition specifiers (g : Generation) : list string :=
  (settled g).*1 ++ (running g).*1 ++ (queued g).*1.

(** What holds of [generateImportMap] at every step of its queue. *)
Definition consistent (webDependencies : list (string * string))
    (lockfile : option ImportMap) (g : Generation) : Prop :=
  specifiers g ≡ₚ webDependencies.*1
  ∧ resolutionError g = firstError (settled g)
  ∧ (∀ s v, imports (newLockfile g) !! s = Some v ↔
            s ≠ "__proto__" ∧ ∃ r, (s, Return r) ∈ settled g ∧ pinnedUrl r = v)
  ∧ (∀ entry, entry ∈ queued g → entry ∈ webDependencies)
  ∧ (∀ s p, (s, p) ∈ running g →
       ∃ v, (s, v) ∈ webDependencies
            ∧ arises (resolveDependencyByNameP s v lockfile true) p)
  ∧ (∀ s c, (s, c) ∈ settled g →
       ∃ v, (s, v) ∈ webDependencies
            ∧ arises (resolveDependencyByNameP s v lockfile true) (Settled c)).

(** What holds at every step when the lockfile pins each specifier of the
    batch to a URL that the cache of [w] holds: the world is still [w],
    and each task reads the cache and returns what it holds. *)
Definition offline_run (webDependencies : list (string * string))
    (lockfile : option ImportMap) (w : World) (g : Generation) : Prop :=
  gen_world g = w
  ∧ (∀ entry, entry ∈ queued g → entry ∈ webDependencies)
  ∧ (∀ s p, (s, p) ∈ running g →
       ∃ url entry,
         lockfilePin lockfile s = Some url
         ∧ resourceCache w !! qualify PIKA_CDN url = Some entry
         ∧ quiet w (mkResolution (data entry) (meta_pinnedUrl (metadata entry))) p)
  ∧ (∀ s c, (s, c) ∈ settled g →
       ∃ url entry,
         lockfilePin lockfile s = Some url
         ∧ resourceCache w !! qualify PIKA_CDN url = Some entry
         ∧ c = Return (mkResolution (data entry) (meta_pinnedUrl (metadata entry)))).

End Install.

(** ** The freshness-aware read path: [fetchCDN] *)

Definition tryCatch {A} (m : M A) (handler : Error → M A) : M A := λ w,
  match m w with
  | (Return a, w') => (Return a, w')
  | (Throw e, w') => handler e w'
  end.

(** What [fetchCDN] resolves to.  [headers] and [statusCode] come from the
    metadata on the cached paths, where they may be missing. *)
Record FetchResult := mkFetchResult {
  fr_body : string;
  fr_headers : option Headers;
  fr_statusCode : option Z;
  isCached : bool;
  isStale : bool;
}.

Module Regex.

Definition isDigit (c : ascii) : bool :=
  let n := nat_of_ascii c in (48 <=? n)%nat && (n <=? 57)%nat.

(** The longest run of digits at the start of [s]: a greedy [\d*]. *)
Fixpoint digits (s : string) : string :=
  match s with
  | String c s' => if isDigit c then String c (digits s') else EmptyString
  | EmptyString => EmptyString
  end.

(** [s] without a prefix of the length of [p]. *)
Fixpoint dropPrefix (p s : string) : string :=
  match p, s with
  | String _ p', String _ s' => dropPrefix p' s'
  | _, _ => s
  end.

(** Group 1 of the leftmost match of [/max-age=(\d+)/] in [s]. *)
Fixpoint matchMaxAge (s : string) : option string :=
  let here :=
    if String.prefix "max-age=" s
    then digits (dropPrefix "max-age=" s) else EmptyString in
  if negb (String.eqb here EmptyString) then Some here
  else match s with
       | String _ s' => matchMaxAge s'
       | EmptyString => None
       end.

(** [parseInt] of a string of decimal digits. *)
Definition parseInt (s : string) : Z :=
  fold_left (λ acc c, 10 * acc + (Z.of_nat (nat_of_ascii c) - 48))
            (list_ascii_of_string s) 0.

End Regex.

Section Runtime.

Context `{Env}.

(** The largest time value of a [Date]; beyond it the date is invalid. *)
Definition maxTimeValue : Z := 8640000000000000.

(** The time value read back from the [toUTCString()] of [now] moved
    [seconds] ahead: whole seconds, [None] for an invalid date.
    [setSeconds] counts in local time; the local time is taken here to be
    at a fixed offset from UTC between the two dates (no daylight-saving
    change), so that the move is by [seconds] exactly. *)
Definition freshUntilAfter (t seconds : Z) : option Z :=
  let t' := t + 1000 * seconds in
  if (Z.abs t' <=? maxTimeValue) then Some (t' / 1000 * 1000) else None.

(** [freshUntil >= new Date()], where [freshUntil] may be invalid. *)
Definition isFreshAt (freshUntil : option Z) (t : Z) : bool :=
  match freshUntil with
  | Some f => t <=? f
  | None => false
  end.

Definition fromCache (cachedResult : CacheEntry) (stale : bool) : FetchResult :=
  mkFetchResult (data cachedResult)
                (meta_headers (metadata cachedResult))
                (meta_statusCode (metadata cachedResult))
                true stale.

(** The rest of [fetchCDN] once the cached entry, if any, was found not
    to be fresh: lines 40-83.  The [try] holds the request alone; its
    [catch] returns the cached entry as stale, or rethrows.  The write to
    the cache is started and not awaited, and its failure is swallowed:
    the entry reaches the cache later, or never.  The world returned here
    is the one in which it has; what [fetchCDN] returns, and the requests
    it makes, do not depend on it. *)
Definition fetchCDN_refresh (resourceUrl : string)
    (cachedResult : option CacheEntry) : M FetchResult :=
  attempt ← tryCatch
    (freshResult ← got resourceUrl ; mret (inl freshResult))
    (λ err,
       match cachedResult with
       | Some cachedResult => mret (inr (fromCache cachedResult true))
       | None => throw err
       end) ;
  match attempt with
  | inr stale => mret stale
  | inl freshResult =>
      match headers freshResult !! "cache-control" ≫= Regex.matchMaxAge with
      | Some seconds =>
          t ← readClock ;
          (* lines 65-73 *)
          cacachePut resourceUrl (body freshResult)
            (mkMetadata None None None
               (Some (headers freshResult)) (Some (statusCode freshResult))
               (freshUntilAfter t (Regex.parseInt seconds)))
      | None => mret ()
      end ;;
      mret (mkFetchResult (body freshResult) (Some (headers freshResult))
                          (Some (statusCode freshResult)) false false)
  end.

(** [fetchCDN], lines 12-83. *)
Definition fetchCDN (resourceUrl : string) : M FetchResult :=
  let resourceUrl := qualify SKYPACK_ORIGIN resourceUrl in
  cachedResult ← cacacheGet resourceUrl ;
  match cachedResult with
  | Some c =>
      let freshUntil := meta_freshUntil (metadata c) in
      t ← readClock ;
      if isFreshAt freshUntil t
      then mret (fromCache c false)
      else fetchCDN_refresh resourceUrl cachedResult
  | None => fetchCDN_refresh resourceUrl cachedResult
  end.

End Runtime.

(** ** The rest of the two modules *)

(** Whether [fetchCDN] answers the qualified URL [url] from the cache
    without a request: there is an entry and its [freshUntil] is not
    before the current time. *)
Definition servedFresh (url : string) (w : World) : bool :=
  match resourceCache w !! url with
  | Some c => isFreshAt (meta_freshUntil (metadata c)) (now w)
  | None => false
  end.

(** [clearCache], the same in index.ts (lines 198-200) and in the module
    of [fetchCDN] (lines 143-145): [cacache.rm.all(RESOURCE_CACHE)].  The
    in-process memo of index.ts is not touched. *)
Definition clearCache : M () := λ w,
  (Return (),
   mkWorld (inMemoryCDNCache w) ∅ (console w) (fetched w) (requests w) (now w)).

(** [LoadByUrlResponse]: [{error}] or [{error: null, body, isCached, isStale}]. *)
Inductive LoadByUrlResponse : Type :=
  | LoadError (error : Error)
  | Loaded (body : string) (isCached isStale : bool).

(** The second shape of [LookupBySpecifierResponse]. *)
Record Lookup := mkLookup {
  lk_body : string;
  lk_isCached : bool;
  lk_isStale : bool;
  importStatus : option string;
  importUrl : option string;
  lk_pinnedUrl : option string;
  typesUrl : option string;
}.

(** What the [catch] of [lookupBySpecifier] can receive: the error
    [fetchCDN] rejected with, or the [TypeError] of reading a header off
    [headers] when it is [undefined]. *)
Inductive LookupFailure : Type :=
  | Rejected (e : Error)
  | HeadersUndefined.

Inductive LookupBySpecifierResponse : Type :=
  | LookupError (error : LookupFailure)
  | LookedUp (l : Lookup).

Section RuntimeLookup.

Context `{Env}.

(** [parseRawPackageImport], imported from './util': the package name and
    the path inside the package, if any. *)
Variable parseRawPackageImport : string → string * option string.

(** The module of [fetchCDN], lines 134-141. *)
Definition loadByUrl (url : string) : M LoadByUrlResponse :=
  tryCatch
    (r ← fetchCDN url ; mret (Loaded (fr_body r) (isCached r) (isStale r)))
    (λ err, mret (LoadError err)).

(** What a property inherited from [Object.prototype] prints as in a
    template literal: the source text of a function, which depends on
    the engine. *)
Variable printed : string → string.

(** [semverMap && semverMap[packageName]], line 103: a property of the
    map's own, one inherited from [Object.prototype], or nothing. *)
Definition semverOf (semverMap : option (gmap string string)) (packageName : string)
  : PropertyRead :=
  match semverMap with
  | Some m =>
      match m !! packageName with
      | Some v => Own v
      | None =>
          if bool_decide (packageName ∈ objectPrototypeNames)
          then Inherited packageName else Absent
      end
  | None => Absent
  end.

(** The URL path built at lines 104-107.  An inherited property is a
    function, or an object for "__proto__": it is truthy, and it is
    printed after the "@". *)
Definition specifierPath (spec : string) (semverMap : option (gmap string string))
  : string :=
  let '(packageName, packagePath) := parseRawPackageImport spec in
  let semverString := semverOf semverMap packageName in
  "/" +:+ packageName
    +:+ match semverString with
        | Own v => if JS.truthy (Some v) then "@" +:+ v else EmptyString
        | Inherited name => "@" +:+ printed name
        | Absent => EmptyString
        end
    +:+ (if JS.truthy packagePath then "/" +:+ JS.interpolate packagePath
         else EmptyString).

(** The module of [fetchCDN], lines 98-123.  The headers are read inside
    the [try]: on the cached paths the metadata may lack [headers], and
    reading a header off [undefined] throws, which the [catch] turns
    into [{error}] as well. *)
Definition lookupBySpecifier (spec : string)
    (semverMap : option (gmap string string)) : M LookupBySpecifierResponse :=
  let lookupUrl := specifierPath spec semverMap in
  tryCatch
    (r ← fetchCDN lookupUrl ;
     match fr_headers r with
     | Some hs =>
         mret (LookedUp (mkLookup (fr_body r) (isCached r) (isStale r)
                           (hs !! "x-import-status") (hs !! "x-import-url")
                           (hs !! "x-pinned-url") (hs !! "x-typescript-types")))
     | None => mret (LookupError HeadersUndefined)
     end)
    (λ err, mret (LookupError (Rejected err))).

End RuntimeLookup.

(** ** The earlier lockfile module (src/unnamed/part_000)

    It has its own [resolveDependencyByName], which differs from the one
    of index.ts at the lookup URL, and its own [resolveDependencyByUrl].
    The CDN client and the logger come from modules that are not among
    the sources, and are parameters. *)

Module Legacy.

Section Legacy.

Context `{Env}.

(** [fetchCDNResource], imported from './util.js', which is not among
    the sources: a parameter. *)
Variable fetchCDNResource : string → M Response.

(** [logger.warn] and [logger.info], of './logger', which is not among
    the sources: parameters, given the message. *)
Variable logger_warn logger_info : ConsoleLine → M ().

(** part_000, lines 100-127. *)
Definition resolveDependencyByUrl (installUrl : string) : M Resolution :=
  let installUrl := qualify PIKA_CDN installUrl in
  cachedResult ← cacacheGet installUrl ;
  match cachedResult with
  | Some cachedResult =>
      mret (mkResolution (data cachedResult)
                         (meta_pinnedUrl (metadata cachedResult)))
  | None =>
      response ← fetchCDNResource installUrl ;
      if negb (statusCode response =? 200) then
        logger_warn (WarnFailedToResolve (statusCode response) installUrl
                                         (body response)) ;;
        throw (FailedToResolve (statusCode response) installUrl (body response))
      else
        let typesUrlPath := headers response !! "x-typescript-types" in
        let typesUrl :=
          if JS.truthy typesUrlPath
          then Some (PIKA_CDN +:+ JS.interpolate typesUrlPath)
          else typesUrlPath in
        when (JS.optIncludes (headers response !! "cache-control") "max-age=")
             (cacachePut installUrl (body response)
                (mkMetadata None (Some installUrl) typesUrl None None None)) ;;
        mret (mkResolution (body response) (Some installUrl))
  end.

(** part_000, line 47. *)
Definition lookupUrl (installSpecifier packageSemver : string) : string :=
  PIKA_CDN +:+ "/" +:+ installSpecifier +:+ "@" +:+ packageSemver.

(** part_000, lines 17-89: the body of [resolveDependencyByName], up to
    its tail call. *)
Definition resolveActivation (installSpecifier packageSemver : string)
    (lockfile : option ImportMap) (canRetry : bool) : M Activation :=
  match lockfilePin lockfile installSpecifier with
  | Some installUrl =>
      r ← resolveDependencyByUrl installUrl ; mret (Done r)
  | None =>
      if inheritedPin lockfile installSpecifier then
        (* the test of line 27 holds of an inherited property, and
           [resolveDependencyByUrl] throws at its first line, line 101 *)
        throw (NotAFunction "installUrl.startsWith")
      else
      when (String.eqb packageSemver "latest")
           (logger_warn (WarnLatest installSpecifier)) ;;
      if isWorkaround packageSemver then
        throw ReactWorkaroundError
      else if isComplex packageSemver then
        throw (ComplexSemverError installSpecifier packageSemver)
      else
        let installUrl := lookupUrl installSpecifier packageSemver in
        response ← fetchCDNResource installUrl ;
        if negb (statusCode response =? 200) then
          throw (FailedToResolve (statusCode response) installUrl (body response))
        else
          let importUrlPath := headers response !! "x-import-url" in
          let pinnedUrlPath := headers response !! "x-pinned-url" in
          let buildStatus := headers response !! "x-import-status" in
          if JS.strictEq buildStatus "SUCCESS" then
            mret (Done (mkResolution (body response)
                          (Some (PIKA_CDN +:+ JS.interpolate pinnedUrlPath))))
          else if negb canRetry || JS.strictEq buildStatus "FAIL" then
            throw (FailedToBuild installSpecifier packageSemver)
          else
            logger_info (LogBuilding installSpecifier packageSemver) ;;
            if negb (JS.truthy importUrlPath) then
              throw ImportUrlExpected
            else
              poll ← fetchCDNResource (JS.interpolate importUrlPath) ;
              if negb (statusCode poll =? 200) then
                throw (UnexpectedResponse (statusCode poll)
                         (PIKA_CDN +:+ JS.interpolate importUrlPath))
              else
                mret CallAgain
  end.

Fixpoint resolveDependencyByName_fuel (fuel : nat)
    (installSpecifier packageSemver : string)
    (lockfile : option ImportMap) (canRetry : bool) (w : World)
  : option (Completion Resolution * World) :=
  match fuel with
  | O => None
  | S fuel =>
      match resolveActivation installSpecifier packageSemver lockfile canRetry w with
      | (Return (Done r), w') => Some (Return r, w')
      | (Return CallAgain, w') =>
          resolveDependencyByName_fuel fuel installSpecifier packageSemver
                                       lockfile false w'
      | (Throw e, w') => Some (Throw e, w')
      end
  end.

(** Two activations are enough here too, so the default is never taken. *)
Definition resolveDependencyByName (installSpecifier packageSemver : string)
    (lockfile : option ImportMap) (canRetry : bool) : M Resolution := λ w,
  default (Throw (FailedToBuild installSpecifier packageSemver), w)
    (resolveDependencyByName_fuel 2 installSpecifier packageSemver
                                  lockfile canRetry w).

End Legacy.

End Legacy.

(** ** The installer (snowpack/src/build/install.ts) *)

(** install.ts, lines 48-50. *)
Definition isImportOfPackage (importUrl packageName : string) : bool :=
  String.eqb packageName importUrl || JS.startsWith importUrl (packageName +:+ "/").

(** ** Concrete worlds and CDNs, for the examples *)

Definition pikaOrigin : string := "https://cdn.pika.dev".
Definition skypackOrigin : string := "https://cdn.skypack.dev".

(** A fresh process on a machine with an empty cache, at time 0. *)
Definition emptyWorld : World := mkWorld ∅ ∅ [] [] [] 0.

Definition plainResponse (status : Z) (hs : list (string * string)) (b : string)
  : Response := mkResponse status (list_to_map hs) b.

(** A CDN that answers every request with a cacheable module. *)
Definition cacheableCDN : Env :=
  mkEnv pikaOrigin skypackOrigin
    (λ _ _, Some (plainResponse 200 [("cache-control", "max-age=31536000")]
                                "export default 1;"))
    (λ _, 25).

(** A CDN whose answers carry no [cache-control] header and change from
    the first request to the next. *)
Definition uncachedCDN : Env :=
  mkEnv pikaOrigin skypackOrigin
    (λ n _, Some (plainResponse 200 []
                    (match n with O => "export default 1;" | _ => "export default 2;" end)))
    (λ _, 25).

(** A CDN that is building the package at the first request, answers the
    poll, and has the package built from then on. *)
Definition buildingCDN : Env :=
  mkEnv pikaOrigin skypackOrigin
    (λ n _, Some (match n with
                  | 0%nat => plainResponse 200 [("x-import-status", "PENDING");
                                                ("x-import-url", "/new/foo@1.0.0")] ""
                  | 1%nat => plainResponse 200 [] ""
                  | _ => plainResponse 200 [("x-import-status", "SUCCESS");
                                            ("x-pinned-url", "/pin/foo@v1.0.0-abc/foo.js")]
                                       "export default 1;"
                  end))
    (λ _, 25).

(** A CDN on which the build never ends. *)
Definition stuckCDN : Env :=
  mkEnv pikaOrigin skypackOrigin
    (λ _ _, Some (plainResponse 200 [("x-import-status", "PENDING");
                                     ("x-import-url", "/new/foo@1.0.0")] ""))
    (λ _, 25).

(** A CDN that sends neither a build status nor a poll location. *)
Definition silentCDN : Env :=
  mkEnv pikaOrigin skypackOrigin (λ _ _, Some (plainResponse 200 [] "")) (λ _, 25).

(** A CDN that announces a build and then refuses the poll. *)
Definition refusingCDN : Env :=
  mkEnv pikaOrigin skypackOrigin
    (λ n _, Some (match n with
                  | 0%nat => plainResponse 200 [("x-import-status", "PENDING");
                                                ("x-import-url", "/new/foo@1.0.0")] ""
                  | _ => plainResponse 500 [] "Internal Server Error"
                  end))
    (λ _, 25).

(** No network at all: every request fails. *)
Definition offline : Env := mkEnv pikaOrigin skypackOrigin (λ _ _, None) (λ _, 25).

(** A CDN on which every package is built. *)
Definition builtCDN : Env :=
  mkEnv pikaOrigin skypackOrigin
    (λ _ url, Some (plainResponse 200 [("x-import-status", "SUCCESS");
                                       ("x-pinned-url", "/pin/v1.0.0-abc/mod.js")]
                                  "export default 1;"))
    (λ _, 25).

(** A batch of two, the second with a range that is refused. *)
Definition twoDependencies : list (string * string) :=
  [("a", "1.0.0"); ("b", "1 2")].

(** A run of a batch of two.  Both tasks are started, as the loop of line
    175 does for a batch of at most 16 entries; the second task ends;
    then the answer for the first comes in, its resolution settles, and
    it ends. *)
Definition bothStarted : list Pick :=
  [Start; Start; Resume 1; Resume 0; Resume 0; Resume 0].

(** A batch with the specifier "__proto__", which the object
    [{"__proto__": "1.0.0", "a": "1.0.0"}] read from a JSON file has as a
    property of its own. *)
Definition protoDependencies : list (string * string) :=
  [("__proto__", "1.0.0"); ("a", "1.0.0")].

(** A run of a batch of two in which both tasks are started and the first
    is run to its end before the second goes on. *)
Definition oneThenOther : list Pick :=
  [Start; Start; Resume 0; Resume 0; Resume 0; Resume 0; Resume 0; Resume 0].

(** A machine whose cache holds "/foo", fresh until time 5000, at the
    given time. *)
Definition worldWithFoo (time : Z) : World :=
  mkWorld ∅
    {[ "https://cdn.skypack.dev/foo" :=
         mkCacheEntry "export default 0;"
           (mkMetadata None None None (Some ∅) (Some 200) (Some 5000)) ]}
    [] [] [] time.

(** A CDN that knows no package. *)
Definition missingCDN : Env :=
  mkEnv pikaOrigin skypackOrigin (λ _ _, Some (plainResponse 404 [] "Not Found"))
        (λ _, 25).

(** A machine whose cache holds the module "foo" is pinned to, stored
    with a [pinnedUrl]. *)
Definition worldWithPin : World :=
  mkWorld ∅
    {[ "https://cdn.pika.dev/pin/foo@v1.0.0-abc/foo.js" :=
         mkCacheEntry "export default 1;"
           (mkMetadata (Some "https://cdn.pika.dev/pin/foo@v1.0.0-abc/foo.js")
                       None None None None None) ]}
    [] [] [] 0.

(** A lockfile with one pin. *)
Definition fooLockfile : ImportMap :=
  mkImportMap {[ "foo" := Some "https://cdn.pika.dev/pin/foo@v1.0.0-abc/foo.js" ]}.

(** * Properties *)

(** Unfolds the computations down to the worlds they pass on. *)
Ltac run :=
  unfold when, tryCatch, throw, consoleWrite, cacacheGet, cacachePut, memoGet,
    memoSet, noteFetched, readClock, got, requested, logged in *;
  unfold mbind, M_bind, mret, M_ret in *;
  cbn [fst snd inMemoryCDNCache resourceCache console fetched requests now] in *.

(** Membership in a list written out. *)
Ltac among := rewrite ?elem_of_cons in *; intuition auto.

(** ** Strings *)

Lemma prefix_append (p s : string) : String.prefix p (p +:+ s) = true.
Proof.
  induction p as [|c p IH]; simpl.
  - by destruct s.
  - destruct (ascii_dec c c); [exact IH | congruence].
Qed.

Lemma startsWith_qualify (origin url : string) :
  JS.startsWith (qualify origin url) origin = true.
Proof.
  unfold qualify. destruct (JS.startsWith url origin) eqn:E; [exact E|].
  apply prefix_append.
Qed.

Lemma qualify_qualified (origin url : string) :
  JS.startsWith url origin = true → qualify origin url = url.
Proof. unfold qualify. by intros ->. Qed.

Lemma qualify_idemp (origin url : string) :
  qualify origin (qualify origin url) = qualify origin url.
Proof. apply qualify_qualified, startsWith_qualify. Qed.

Lemma truthy_Some (v : option string) :
  JS.truthy v = true → ∃ s, v = Some s ∧ s ≠ EmptyString.
Proof.
  destruct v as [s|]; simpl; [|done].
  destruct (String.eqb_spec s EmptyString); [done | eauto].
Qed.

Lemma truthy_nonempty (s : string) : s ≠ EmptyString → JS.truthy (Some s) = true.
Proof. simpl. by destruct (String.eqb_spec s EmptyString). Qed.

(** ** The install-time path *)

Section InstallProperties.

Context `{Env}.

Implicit Types (w : World) (lockfile : option ImportMap).
Implicit Types (installSpecifier packageSemver url : string).

Lemma lookupUrl_qualified installSpecifier packageSemver :
  qualify PIKA_CDN (lookupUrl installSpecifier packageSemver)
  = lookupUrl installSpecifier packageSemver.
Proof.
  apply qualify_qualified. unfold lookupUrl, JS.startsWith.
  destruct (JS.split1 "/" installSpecifier) as [specPart1 rest].
  destruct (String.prefix "@" specPart1); apply prefix_append.
Qed.

Lemma complex_not_latest packageSemver :
  isWorkaround packageSemver || isComplex packageSemver = true →
  String.eqb packageSemver "latest" = false.
Proof.
  intros Hbad. destruct (String.eqb_spec packageSemver "latest") as [->|]; [|done].
  by vm_compute in Hbad.
Qed.

Lemma lockfilePin_Some lockfile installSpecifier url :
  lockfilePin lockfile installSpecifier = Some url ↔
  ∃ lf, lockfile = Some lf
        ∧ imports lf !! installSpecifier = Some (Some url)
        ∧ url ≠ EmptyString.
Proof.
  unfold lockfilePin. split.
  - destruct lockfile as [lf|]; [|done].
    destruct (imports lf !! installSpecifier) as [v|] eqn:E; [|done].
    destruct (JS.truthy v) eqn:T; [|done]. intros ->.
    apply truthy_Some in T as (s & [= ->] & Hs). eauto.
  - intros (lf & -> & -> & Hne). by rewrite truthy_nonempty.
Qed.

(** One activation on the pin path is the URL resolver. *)
Lemma resolveActivation_pin installSpecifier packageSemver lockfile canRetry url w :
  lockfilePin lockfile installSpecifier = Some url →
  resolveActivation installSpecifier packageSemver lockfile canRetry w
  = match resolveDependencyByUrl url w with
    | (Return r, w') => (Return (Done r), w')
    | (Throw e, w') => (Throw e, w')
    end.
Proof.
  intros Hpin. unfold resolveActivation. rewrite Hpin.
  unfold mbind, M_bind. by destruct (resolveDependencyByUrl url w) as [[r|e] w'].
Qed.

(** One activation on the lookup path, up to the answer to the lookup. *)
(** The pin test holds of an inherited property. *)
Lemma resolveActivation_inherited installSpecifier packageSemver lockfile canRetry w :
  lockfilePin lockfile installSpecifier = None →
  inheritedPin lockfile installSpecifier = true →
  resolveActivation installSpecifier packageSemver lockfile canRetry w
  = (Throw (NotAFunction "installUrl.startsWith"), w).
Proof. intros Hpin Hinh. unfold resolveActivation. by rewrite Hpin, Hinh. Qed.

Lemma resolveActivation_invalid installSpecifier packageSemver lockfile canRetry w :
  lockfilePin lockfile installSpecifier = None →
  inheritedPin lockfile installSpecifier = false →
  isWorkaround packageSemver || isComplex packageSemver = true →
  resolveActivation installSpecifier packageSemver lockfile canRetry w
  = (Throw (if isWorkaround packageSemver then ReactWorkaroundError
            else ComplexSemverError installSpecifier packageSemver), w).
Proof.
  intros Hpin Hinh Hbad. unfold resolveActivation. rewrite Hpin, Hinh.
  rewrite (complex_not_latest _ Hbad). unfold mbind, M_bind, when, mret, M_ret.
  destruct (isWorkaround packageSemver); [done|].
  simpl in Hbad. by rewrite Hbad.
Qed.

(** *** The CDN client *)

Lemma fetchCDNResource_fetched url w :
  fetched (fetchCDNResource url w).2 = qualify PIKA_CDN url :: fetched w.
Proof.
  unfold fetchCDNResource. run. by repeat case_match; simplify_eq.
Qed.

Lemma fetchCDNResource_console url w :
  console (fetchCDNResource url w).2 = console w.
Proof.
  unfold fetchCDNResource. run. by repeat case_match; simplify_eq.
Qed.

Lemma fetchCDNResource_resourceCache url w :
  resourceCache (fetchCDNResource url w).2 = resourceCache w.
Proof.
  unfold fetchCDNResource. run. by repeat case_match; simplify_eq.
Qed.

(** A memoized response is returned without a request. *)
Lemma fetchCDNResource_memo url w response :
  inMemoryCDNCache w !! qualify PIKA_CDN url = Some response →
  (fetchCDNResource url w).1 = Return response
  ∧ requests (fetchCDNResource url w).2 = requests w.
Proof.
  intros Hm.
  unfold fetchCDNResource. run. by rewrite Hm.
Qed.

Lemma when_latest installSpecifier packageSemver w :
  when (String.eqb packageSemver "latest")
       (consoleWrite (WarnLatest installSpecifier)) w
  = (Return (), warnedLatest installSpecifier packageSemver w).
Proof. unfold when, warnedLatest. by destruct (String.eqb _ _). Qed.

(** Enters the lookup path of [resolveActivation] in the goal, up to the
    answer [Hlookup] to the lookup request. *)
Ltac enter_lookup Hpin Hinh Hw Hc Hlookup :=
  unfold resolveActivation; rewrite Hpin, Hinh;
  unfold mbind at 1, M_bind at 1; rewrite when_latest; cbv beta iota;
  rewrite Hw, Hc; cbv zeta; unfold mbind at 1, M_bind at 1; rewrite Hlookup;
  cbv beta iota.

Section Lookup.

Variables (installSpecifier packageSemver : string).
Variables (lockfile : option ImportMap) (canRetry : bool) (w w1 : World).
Variable response : Response.

Local Abbreviation installUrl := (lookupUrl installSpecifier packageSemver).
Local Abbreviation importUrlPath := (headers response !! "x-import-url").
Local Abbreviation pinnedUrlPath := (headers response !! "x-pinned-url").
Local Abbreviation buildStatus := (headers response !! "x-import-status").

Hypothesis Hpin : lockfilePin lockfile installSpecifier = None.
Hypothesis Hinh : inheritedPin lockfile installSpecifier = false.
Hypothesis Hw : isWorkaround packageSemver = false.
Hypothesis Hc : isComplex packageSemver = false.

Lemma resolveActivation_lookup_rejected e :
  fetchCDNResource installUrl (warnedLatest installSpecifier packageSemver w)
    = (Throw e, w1) →
  resolveActivation installSpecifier packageSemver lockfile canRetry w
  = (Throw e, w1).
Proof. intros Hl. by enter_lookup Hpin Hinh Hw Hc Hl. Qed.

Hypothesis Hlookup :
  fetchCDNResource installUrl (warnedLatest installSpecifier packageSemver w)
  = (Return response, w1).

Lemma resolveActivation_not_200 :
  statusCode response ≠ 200 →
  resolveActivation installSpecifier packageSemver lockfile canRetry w
  = (Throw (FailedToResolve (statusCode response) installUrl (body response)), w1).
Proof.
  intros Hs. enter_lookup Hpin Hinh Hw Hc Hlookup.
  by destruct (Z.eqb_spec (statusCode response) 200).
Qed.

Hypothesis H200 : statusCode response = 200.

Lemma resolveActivation_success :
  JS.strictEq buildStatus "SUCCESS" = true →
  resolveActivation installSpecifier packageSemver lockfile canRetry w
  = (Return (Done (mkResolution (body response)
                     (Some (PIKA_CDN +:+ JS.interpolate pinnedUrlPath)))), w1).
Proof.
  intros Hs. enter_lookup Hpin Hinh Hw Hc Hlookup. rewrite H200. cbn [Z.eqb Pos.eqb negb].
  by rewrite Hs.
Qed.

Hypothesis Hnot_success : JS.strictEq buildStatus "SUCCESS" = false.

Lemma resolveActivation_build_failed :
  negb canRetry || JS.strictEq buildStatus "FAIL" = true →
  resolveActivation installSpecifier packageSemver lockfile canRetry w
  = (Throw (FailedToBuild installSpecifier packageSemver), w1).
Proof.
  intros Hf. enter_lookup Hpin Hinh Hw Hc Hlookup. rewrite H200. cbn [Z.eqb Pos.eqb negb].
  by rewrite Hnot_success, Hf.
Qed.

Hypothesis Hpending : negb canRetry || JS.strictEq buildStatus "FAIL" = false.

Lemma resolveActivation_no_import_url :
  JS.truthy importUrlPath = false →
  resolveActivation installSpecifier packageSemver lockfile canRetry w
  = (Throw ImportUrlExpected,
     logged (LogBuilding installSpecifier packageSemver) w1).
Proof.
  intros Hi. enter_lookup Hpin Hinh Hw Hc Hlookup. rewrite H200. cbn [Z.eqb Pos.eqb negb].
  rewrite Hnot_success, Hpending.
  unfold mbind, M_bind, consoleWrite. by rewrite Hi.
Qed.

Lemma resolveActivation_poll importUrl :
  importUrlPath = Some importUrl → importUrl ≠ EmptyString →
  resolveActivation installSpecifier packageSemver lockfile canRetry w
  = match fetchCDNResource importUrl
            (logged (LogBuilding installSpecifier packageSemver) w1) with
    | (Return poll, w2) =>
        if statusCode poll =? 200 then (Return CallAgain, w2)
        else (Throw (UnexpectedResponse (statusCode poll)
                       (PIKA_CDN +:+ importUrl)), w2)
    | (Throw e, w2) => (Throw e, w2)
    end.
Proof.
  intros Hi Hne. enter_lookup Hpin Hinh Hw Hc Hlookup. rewrite H200. cbn [Z.eqb Pos.eqb negb].
  rewrite Hnot_success, Hpending.
  unfold mbind at 1, M_bind at 1, consoleWrite. cbv beta iota.
  rewrite Hi, (truthy_nonempty _ Hne). cbn [negb JS.interpolate].
  unfold mbind, M_bind.
  destruct (fetchCDNResource importUrl _) as [[poll|e] w2]; [|done].
  by destruct (statusCode poll =? 200).
Qed.

End Lookup.

(** *** The bound on the recursion *)

Lemma fetchCDNResource_world url w c w' :
  fetchCDNResource url w = (c, w') →
  fetched w' = qualify PIKA_CDN url :: fetched w
  ∧ console w' = console w
  ∧ resourceCache w' = resourceCache w.
Proof.
  intros E. rewrite <- (fetchCDNResource_fetched url w),
    <- (fetchCDNResource_console url w), <- (fetchCDNResource_resourceCache url w).
  by rewrite E.
Qed.

Lemma warnedLatest_fetched installSpecifier packageSemver w :
  fetched (warnedLatest installSpecifier packageSemver w) = fetched w.
Proof. unfold warnedLatest. by case_match. Qed.

Lemma warnedLatest_buildingLines installSpecifier packageSemver w :
  buildingLines (console (warnedLatest installSpecifier packageSemver w))
  = buildingLines (console w).
Proof. unfold warnedLatest. by case_match. Qed.

Lemma buildingLines_logged installSpecifier packageSemver w :
  buildingLines (console (logged (LogBuilding installSpecifier packageSemver) w))
  = S (buildingLines (console w)).
Proof. done. Qed.

(** The tail call is made only while a retry is allowed. *)
Lemma resolveActivation_again installSpecifier packageSemver lockfile canRetry w w' :
  resolveActivation installSpecifier packageSemver lockfile canRetry w
    = (Return CallAgain, w') →
  canRetry = true.
Proof.
  destruct canRetry; [done|]. unfold resolveActivation.
  destruct (lockfilePin lockfile installSpecifier) as [url|].
  - unfold mbind, M_bind, mret, M_ret.
    by destruct (resolveDependencyByUrl url w) as [[r|e] w1].
  - destruct (inheritedPin lockfile installSpecifier); [done|].
    unfold mbind at 1, M_bind at 1. rewrite when_latest. cbv beta iota zeta.
    destruct (isWorkaround packageSemver); [done|].
    destruct (isComplex packageSemver); [done|].
    unfold mbind, M_bind, mret, M_ret, throw.
    destruct (fetchCDNResource _ _) as [[response|e] w1]; [|done].
    destruct (negb (statusCode response =? 200)); [done|].
    by destruct (JS.strictEq _ "SUCCESS").
Qed.

(** Two activations always reach a result: more fuel changes nothing. *)
Lemma resolveDependencyByName_fuel_enough n installSpecifier packageSemver
    lockfile canRetry w :
  resolveDependencyByName_fuel (S (S n)) installSpecifier packageSemver
                               lockfile canRetry w
  = Some (resolveDependencyByName installSpecifier packageSemver lockfile canRetry w).
Proof.
  unfold resolveDependencyByName. cbn [resolveDependencyByName_fuel].
  destruct (resolveActivation _ _ _ canRetry w) as [[[r|]|e] w1]; [done| |done].
  destruct (resolveActivation _ _ _ false w1) as [[[r|]|e] w2] eqn:E; [done| |done].
  by apply resolveActivation_again in E.
Qed.

(** [resolveDependencyByName] by its activations. *)
Lemma resolveDependencyByName_unfold installSpecifier packageSemver lockfile canRetry w :
  resolveDependencyByName installSpecifier packageSemver lockfile canRetry w
  = match resolveActivation installSpecifier packageSemver lockfile canRetry w with
    | (Return (Done r), w') => (Return r, w')
    | (Return CallAgain, w') =>
        resolveDependencyByName installSpecifier packageSemver lockfile false w'
    | (Throw e, w') => (Throw e, w')
    end.
Proof.
  unfold resolveDependencyByName. cbn [resolveDependencyByName_fuel].
  destruct (resolveActivation _ _ _ canRetry w) as [[[r|]|e] w1]; [done| |done].
  destruct (resolveActivation _ _ _ false w1) as [[[r|]|e] w2] eqn:E; [done| |done].
  by apply resolveActivation_again in E.
Qed.

(** With no retry left, the call is its one activation. *)
Lemma resolveDependencyByName_last installSpecifier packageSemver lockfile w c w' :
  resolveDependencyByName installSpecifier packageSemver lockfile false w = (c, w') ↔
  resolveActivation installSpecifier packageSemver lockfile false w
  = (match c with Return r => Return (Done r) | Throw e => Throw e end, w').
Proof.
  rewrite resolveDependencyByName_unfold.
  destruct (resolveActivation _ _ _ false w) as [[[r|]|e] w1] eqn:E.
  - split; [by intros [= <- <-] | destruct c; intros ?; by simplify_eq].
  - by apply resolveActivation_again in E.
  - split; [by intros [= <- <-] | destruct c; intros ?; by simplify_eq].
Qed.

(** What one activation on the lookup path adds to the log of the CDN
    client and to the console: nothing when the range is refused; the
    lookup; or the lookup and then one poll, which takes [canRetry]. *)
Lemma resolveActivation_trace installSpecifier packageSemver lockfile canRetry w c w1 :
  lockfilePin lockfile installSpecifier = None →
  resolveActivation installSpecifier packageSemver lockfile canRetry w = (c, w1) →
  let installUrl := lookupUrl installSpecifier packageSemver in
  (fetched w1 = fetched w
   ∧ buildingLines (console w1) = buildingLines (console w)
   ∧ c ≠ Return CallAgain)
  ∨ (fetched w1 = installUrl :: fetched w
     ∧ (buildingLines (console w) ≤ buildingLines (console w1)
        ≤ buildingLines (console w) + Nat.b2n canRetry)%nat
     ∧ c ≠ Return CallAgain)
  ∨ (∃ pollUrl, fetched w1 = pollUrl :: installUrl :: fetched w
     ∧ buildingLines (console w1) = S (buildingLines (console w))
     ∧ canRetry = true).
Proof.
  intros Hpin E. cbv zeta.
  destruct (inheritedPin lockfile installSpecifier) eqn:Hinh.
  { rewrite (resolveActivation_inherited _ _ _ _ _ Hpin Hinh) in E.
    simplify_eq. by left. }
  destruct (isWorkaround packageSemver || isComplex packageSemver) eqn:Hv.
  { rewrite (resolveActivation_invalid _ _ _ _ _ Hpin Hinh Hv) in E.
    simplify_eq. by left. }
  apply orb_false_elim in Hv as [Hw Hc].
  destruct (fetchCDNResource (lookupUrl installSpecifier packageSemver)
              (warnedLatest installSpecifier packageSemver w))
    as [[response|e] wl] eqn:Hl.
  2: { rewrite (resolveActivation_lookup_rejected _ _ _ _ _ _ Hpin Hinh Hw Hc _ Hl) in E.
       apply fetchCDNResource_world in Hl as (Hf & Hcon & _). simplify_eq.
       right; left.
       rewrite lookupUrl_qualified, warnedLatest_fetched in Hf.
       rewrite Hcon, warnedLatest_buildingLines. split_and!; (done || lia). }
  pose proof Hl as Hl'.
  apply fetchCDNResource_world in Hl' as (Hf & Hcon & _).
  rewrite lookupUrl_qualified, warnedLatest_fetched in Hf.
  apply (f_equal buildingLines) in Hcon. rewrite warnedLatest_buildingLines in Hcon.
  destruct (decide (statusCode response = 200)) as [H200|Hn200].
  2: { rewrite (resolveActivation_not_200 _ _ _ _ _ _ _ Hpin Hinh Hw Hc Hl Hn200) in E.
       simplify_eq. right; left. split_and!; (done || lia). }
  destruct (JS.strictEq (headers response !! "x-import-status") "SUCCESS") eqn:Hs.
  { rewrite (resolveActivation_success _ _ _ _ _ _ _ Hpin Hinh Hw Hc Hl H200 Hs) in E.
    simplify_eq. right; left. split_and!; (done || lia). }
  destruct (negb canRetry || JS.strictEq (headers response !! "x-import-status") "FAIL")
    eqn:Hp.
  { rewrite (resolveActivation_build_failed _ _ _ _ _ _ _ Hpin Hinh Hw Hc Hl H200 Hs Hp) in E.
    simplify_eq. right; left. split_and!; (done || lia). }
  assert (canRetry = true) as ->
    by (apply orb_false_elim in Hp as [Hp _]; by destruct canRetry).
  destruct (JS.truthy (headers response !! "x-import-url")) eqn:Hi.
  2: { rewrite (resolveActivation_no_import_url _ _ _ _ _ _ _ Hpin Hinh Hw Hc Hl H200 Hs Hp Hi)
         in E.
       simplify_eq. right; left. rewrite buildingLines_logged.
       split_and!; (done || (cbn; lia)). }
  apply truthy_Some in Hi as (importUrl & Hi & Hne).
  rewrite (resolveActivation_poll _ _ _ _ _ _ _ Hpin Hinh Hw Hc Hl H200 Hs Hp _ Hi Hne) in E.
  destruct (fetchCDNResource importUrl _) as [cp w2] eqn:Hpoll.
  apply fetchCDNResource_world in Hpoll as (Hf2 & Hcon2 & _).
  apply (f_equal buildingLines) in Hcon2. rewrite buildingLines_logged in Hcon2.
  cbn [fetched logged] in Hf2.
  assert (w1 = w2) as -> by (repeat case_match; by simplify_eq).
  right; right. exists (qualify PIKA_CDN importUrl).
  split_and!; [congruence | lia | done].
Qed.

(** *** The URL resolver *)

Lemma resolveDependencyByUrl_hit url w entry :
  resourceCache w !! qualify PIKA_CDN url = Some entry →
  resolveDependencyByUrl url w
  = (Return (mkResolution (data entry) (meta_pinnedUrl (metadata entry))), w).
Proof. intros Hhit. unfold resolveDependencyByUrl. run. by rewrite Hhit. Qed.

Lemma resolveDependencyByUrl_miss url w :
  resourceCache w !! qualify PIKA_CDN url = None →
  let installUrl := qualify PIKA_CDN url in
  resolveDependencyByUrl url w
  = match fetchCDNResource installUrl w with
    | (Return response, w1) =>
        if statusCode response =? 200 then
          (Return (mkResolution (body response) (Some installUrl)),
           if JS.optIncludes (headers response !! "cache-control") "max-age="
           then (cacachePut installUrl (body response)
                   (mkMetadata None (Some installUrl)
                      (if JS.truthy (headers response !! "x-typescript-types")
                       then Some (PIKA_CDN +:+ JS.interpolate
                                    (headers response !! "x-typescript-types"))
                       else headers response !! "x-typescript-types")
                      None None None) w1).2
           else w1)
        else
          (Throw (FailedToResolve (statusCode response) installUrl (body response)),
           logged (WarnFailedToResolve (statusCode response) installUrl
                                       (body response)) w1)
    | (Throw e, w1) => (Throw e, w1)
    end.
Proof.
  intros Hmiss. cbv zeta. unfold resolveDependencyByUrl.
  unfold mbind at 1, M_bind at 1, cacacheGet. rewrite Hmiss.
  unfold mbind at 1, M_bind at 1.
  destruct (fetchCDNResource _ w) as [[response|e] w1]; [|done].
  destruct (statusCode response =? 200); cbn [negb]; [|done].
  run. by destruct (JS.optIncludes _ _).
Qed.

(** The URL resolver calls the CDN client at most once, for the qualified
    URL, and writes no "Building ..." line. *)
Lemma resolveDependencyByUrl_trace url w c w1 :
  resolveDependencyByUrl url w = (c, w1) →
  (fetched w1 = fetched w ∨ fetched w1 = qualify PIKA_CDN url :: fetched w)
  ∧ buildingLines (console w1) = buildingLines (console w).
Proof.
  destruct (resourceCache w !! qualify PIKA_CDN url) as [entry|] eqn:Hc.
  { rewrite (resolveDependencyByUrl_hit _ _ _ Hc). intros [= <- <-]. auto. }
  rewrite (resolveDependencyByUrl_miss _ _ Hc). cbv zeta.
  destruct (fetchCDNResource _ w) as [cr w'] eqn:Hf.
  apply fetchCDNResource_world in Hf as (Hf & Hcon & _).
  rewrite qualify_idemp in Hf. apply (f_equal buildingLines) in Hcon.
  intros E. repeat case_match; simplify_eq; cbn; auto.
Qed.

(** On a miss the URL resolver hands out the qualified URL itself. *)
Lemma resolveDependencyByUrl_miss_pinnedUrl url w r w1 :
  resourceCache w !! qualify PIKA_CDN url = None →
  resolveDependencyByUrl url w = (Return r, w1) →
  pinnedUrl r = Some (qualify PIKA_CDN url)
  ∧ originQualified PIKA_CDN (pinnedUrl r) = true.
Proof.
  intros Hmiss. rewrite (resolveDependencyByUrl_miss _ _ Hmiss). cbv zeta.
  intros E. assert (pinnedUrl r = Some (qualify PIKA_CDN url)) as Hr
    by (repeat case_match; by simplify_eq).
  split; [done|]. rewrite Hr. apply startsWith_qualify.
Qed.

(** A response with a TTL signal is stored under the qualified URL, with
    the metadata [{installUrl, typesUrl}]: no [pinnedUrl]. *)
Lemma resolveDependencyByUrl_stores url w response w' r w1 :
  resourceCache w !! qualify PIKA_CDN url = None →
  fetchCDNResource (qualify PIKA_CDN url) w = (Return response, w') →
  JS.optIncludes (headers response !! "cache-control") "max-age=" = true →
  resolveDependencyByUrl url w = (Return r, w1) →
  res_body r = body response
  ∧ ∃ entry, resourceCache w1 !! qualify PIKA_CDN url = Some entry
             ∧ data entry = body response
             ∧ meta_pinnedUrl (metadata entry) = None.
Proof.
  intros Hmiss Hf Httl. rewrite (resolveDependencyByUrl_miss _ _ Hmiss). cbv zeta.
  rewrite Hf, Httl. destruct (statusCode response =? 200); [|done].
  intros [= <- <-]. split; [done|]. run. rewrite lookup_insert_eq. eauto.
Qed.

(** So the next resolution of the URL, a hit on that entry, has no
    [pinnedUrl] to return. *)
Lemma resolveDependencyByUrl_second_pinnedUrl url w response w' r w1 :
  resourceCache w !! qualify PIKA_CDN url = None →
  fetchCDNResource (qualify PIKA_CDN url) w = (Return response, w') →
  JS.optIncludes (headers response !! "cache-control") "max-age=" = true →
  resolveDependencyByUrl url w = (Return r, w1) →
  resolveDependencyByUrl url w1 = (Return (mkResolution (body response) None), w1).
Proof.
  intros Hmiss Hf Httl E.
  destruct (resolveDependencyByUrl_stores _ _ _ _ _ _ Hmiss Hf Httl E)
    as (_ & entry & Hin & Hd & Hp).
  by rewrite (resolveDependencyByUrl_hit _ _ _ Hin), Hd, Hp.
Qed.

(** The corrected form of C7.  If the first call of [resolveDependencyByUrl]
    for a URL succeeds, and either it was served from the persistent
    cache or the response it got from the CDN client carries a
    [cache-control] header with "max-age=", then a second call returns a
    result with the same body and leaves the world as it is: it performs
    no network request. *)
Theorem resolveDependencyByUrl_twice url w r1 w1 :
  resolveDependencyByUrl url w = (Return r1, w1) →
  is_Some (resourceCache w !! qualify PIKA_CDN url)
  ∨ (∃ response w',
       fetchCDNResource (qualify PIKA_CDN url) w = (Return response, w')
       ∧ JS.optIncludes (headers response !! "cache-control") "max-age=" = true) →
  ∃ r2, resolveDependencyByUrl url w1 = (Return r2, w1)
        ∧ res_body r2 = res_body r1
        ∧ requests (resolveDependencyByUrl url w1).2 = requests w1.
Proof.
  intros E Hcached.
  destruct (resourceCache w !! qualify PIKA_CDN url) as [entry|] eqn:Hc.
  - rewrite (resolveDependencyByUrl_hit _ _ _ Hc) in E. simplify_eq.
    rewrite (resolveDependencyByUrl_hit _ _ _ Hc). eauto.
  - destruct Hcached as [[? [=]] | (response & w' & Hf & Httl)].
    destruct (resolveDependencyByUrl_stores _ _ _ _ _ _ Hc Hf Httl E)
      as (Hb & entry & Hin & Hd & _).
    rewrite (resolveDependencyByUrl_hit _ _ _ Hin).
    eexists. split_and!; [done | cbn; congruence | done].
Qed.

(** *** The specifier resolver *)

(** C6.  On the lookup path (the pin test of line 57 is falsy: the
    lockfile is null, or its [imports] has neither an own truthy entry
    for the specifier nor a property of that name inherited from
    [Object.prototype]), a
    semver range that contains a space or a colon, or that starts with
    one of the two deprecated workaround prefixes ("npm:@reactesm",
    "npm:@pika/react"), makes [resolveDependencyByName] fail at once,
    whatever [canRetry] is: with the workaround error for the prefixes,
    with the complex-semver error otherwise.  The world is left as it
    was: no call to the CDN client, no request, no retry. *)
Theorem resolveDependencyByName_validation
    installSpecifier packageSemver lockfile canRetry w :
  lockfilePin lockfile installSpecifier = None →
  inheritedPin lockfile installSpecifier = false →
  JS.includes packageSemver " " = true
  ∨ JS.includes packageSemver ":" = true
  ∨ JS.startsWith packageSemver "npm:@reactesm" = true
  ∨ JS.startsWith packageSemver "npm:@pika/react" = true →
  resolveDependencyByName installSpecifier packageSemver lockfile canRetry w
  = (Throw (if JS.startsWith packageSemver "npm:@reactesm"
               || JS.startsWith packageSemver "npm:@pika/react"
            then ReactWorkaroundError
            else ComplexSemverError installSpecifier packageSemver), w).
Proof.
  intros Hpin Hinh Hbad.
  assert (isWorkaround packageSemver || isComplex packageSemver = true) as Hv.
  { unfold isWorkaround, isComplex.
    destruct Hbad as [-> | [-> | [-> | ->]]]; by rewrite ?orb_true_r. }
  rewrite resolveDependencyByName_unfold.
  by rewrite (resolveActivation_invalid _ _ _ _ _ Hpin Hinh Hv).
Qed.

(** C2.  When the lockfile holds a pin for the specifier (a non-empty
    URL), [resolveDependencyByName] is the URL resolver applied to the
    pinned URL: same result and same effects, whatever the semver range
    and [canRetry] are, so that no validation of the range takes place.
    The CDN client is called at most once, for the pinned URL by the URL
    resolver, and never for a lookup URL. *)
Theorem resolveDependencyByName_pin
    installSpecifier packageSemver (lf : ImportMap) canRetry url w :
  imports lf !! installSpecifier = Some (Some url) →
  url ≠ EmptyString →
  resolveDependencyByName installSpecifier packageSemver (Some lf) canRetry w
  = resolveDependencyByUrl url w
  ∧ (fetched (resolveDependencyByName installSpecifier packageSemver
                                      (Some lf) canRetry w).2 = fetched w
     ∨ fetched (resolveDependencyByName installSpecifier packageSemver
                                        (Some lf) canRetry w).2
       = qualify PIKA_CDN url :: fetched w).
Proof.
  intros Hin Hne.
  assert (lockfilePin (Some lf) installSpecifier = Some url) as Hpin
    by (apply lockfilePin_Some; eauto).
  assert (resolveDependencyByName installSpecifier packageSemver (Some lf) canRetry w
          = resolveDependencyByUrl url w) as ->.
  { rewrite resolveDependencyByName_unfold, (resolveActivation_pin _ _ _ _ _ _ Hpin).
    by destruct (resolveDependencyByUrl url w) as [[r|e] w1]. }
  split; [done|].
  destruct (resolveDependencyByUrl url w) as [c w1] eqn:E.
  by apply resolveDependencyByUrl_trace in E as [? _].
Qed.

(** C5.  On the lookup path (the pin test of line 57 is falsy: no own
    truthy pin and no property inherited from [Object.prototype]), the
    lookup was answered with status 200 and a build status that
    is neither SUCCESS nor FAIL, and a retry is still allowed.  If no
    poll location came with it (no x-import-url header, or an empty one),
    [resolveDependencyByName] fails with the protocol error, in the
    world reached after the lookup and the "Building ..." line: the CDN
    client was called for the lookup alone.  If a poll location came and
    the poll is answered with a status other than 200, it fails with the
    unexpected-response error in the world reached after that one poll:
    the CDN client was called for the lookup and for the poll, and not
    again. *)
Theorem resolveDependencyByName_protocol_errors
    installSpecifier packageSemver lockfile w response w1 :
  lockfilePin lockfile installSpecifier = None →
  inheritedPin lockfile installSpecifier = false →
  isWorkaround packageSemver = false →
  isComplex packageSemver = false →
  fetchCDNResource (lookupUrl installSpecifier packageSemver)
                   (warnedLatest installSpecifier packageSemver w)
    = (Return response, w1) →
  statusCode response = 200 →
  JS.strictEq (headers response !! "x-import-status") "SUCCESS" = false →
  JS.strictEq (headers response !! "x-import-status") "FAIL" = false →
  let building := logged (LogBuilding installSpecifier packageSemver) w1 in
  (JS.truthy (headers response !! "x-import-url") = false →
     resolveDependencyByName installSpecifier packageSemver lockfile true w
       = (Throw ImportUrlExpected, building)
     ∧ fetched building = lookupUrl installSpecifier packageSemver :: fetched w)
  ∧ (∀ importUrl poll w2,
       headers response !! "x-import-url" = Some importUrl →
       importUrl ≠ EmptyString →
       fetchCDNResource importUrl building = (Return poll, w2) →
       statusCode poll ≠ 200 →
       resolveDependencyByName installSpecifier packageSemver lockfile true w
         = (Throw (UnexpectedResponse (statusCode poll) (PIKA_CDN +:+ importUrl)), w2)
       ∧ fetched w2 = qualify PIKA_CDN importUrl
                        :: lookupUrl installSpecifier packageSemver :: fetched w).
Proof.
  intros Hpin Hinh Hw Hc Hl H200 Hs Hf building.
  assert (negb true || JS.strictEq (headers response !! "x-import-status") "FAIL"
          = false) as Hp by (by rewrite Hf).
  pose proof Hl as Hl'. apply fetchCDNResource_world in Hl' as (Hfl & _ & _).
  rewrite lookupUrl_qualified, warnedLatest_fetched in Hfl.
  split.
  - intros Hi. split; [|done].
    rewrite resolveDependencyByName_unfold.
    by rewrite (resolveActivation_no_import_url _ _ _ _ _ _ _ Hpin Hinh Hw Hc Hl H200 Hs Hp Hi).
  - intros importUrl poll w2 Hi Hne Hpoll Hn200. split.
    + rewrite resolveDependencyByName_unfold.
      rewrite (resolveActivation_poll _ _ _ _ _ _ _ Hpin Hinh Hw Hc Hl H200 Hs Hp _ Hi Hne).
      fold building. rewrite Hpoll.
      by destruct (Z.eqb_spec (statusCode poll) 200).
    + apply fetchCDNResource_world in Hpoll as (-> & _ & _). cbn. by rewrite Hfl.
Qed.


(** The call with no retry left looks up at most once and never polls. *)
Lemma resolveDependencyByName_last_trace installSpecifier packageSemver lockfile w :
  lockfilePin lockfile installSpecifier = None →
  let final := resolveDependencyByName installSpecifier packageSemver lockfile false w in
  fetched final.2 ∈ [fetched w; lookupUrl installSpecifier packageSemver :: fetched w]
  ∧ buildingLines (console final.2) = buildingLines (console w).
Proof.
  intros Hpin. cbv zeta. rewrite resolveDependencyByName_unfold.
  destruct (resolveActivation _ _ _ false w) as [c w1] eqn:E.
  apply resolveActivation_trace in E
    as [(Hf & Hb & Hc) | [(Hf' & Hb' & Hc') | (? & _ & _ & ?)]]; [| |done|done].
  - destruct c as [[r|]|e]; cbn [snd]; rewrite ?Hf; [|done|];
      (split; [among|done]).
  - cbn in Hb'. destruct c as [[r|]|e]; cbn [snd]; rewrite ?Hf'; [|done|];
      (split; [among|lia]).
Qed.

(** C4.  [resolveDependencyByName] looks up at most twice.  Two
    activations are enough for every input: the function bounded by any
    [fuel >= 2] returns, and returns the same.  On the lookup path the
    CDN client is called, in this order, for nothing; for the lookup; for
    the lookup and one poll; or for the lookup, one poll and the second
    lookup ([fetched] grows at the head).  The "Building ..." line, written
    on entering the pending state, is written at most once.  Where the
    pin test of line 57 is falsy (no own truthy pin, no property
    inherited from [Object.prototype]), a lookup
    answered PENDING with a poll location, the poll answered 200 and the
    second lookup answered SUCCESS end in that success, after the three
    calls; with the second lookup answered PENDING too, the resolution
    fails with the build failure. *)
Theorem resolveDependencyByName_two_attempts
    installSpecifier packageSemver lockfile canRetry w :
  let final := resolveDependencyByName installSpecifier packageSemver lockfile canRetry w in
  let installUrl := lookupUrl installSpecifier packageSemver in
  (∀ fuel, (2 ≤ fuel)%nat →
     resolveDependencyByName_fuel fuel installSpecifier packageSemver lockfile canRetry w
     = Some final)
  ∧ (lockfilePin lockfile installSpecifier = None →
     ∃ pollUrl,
       fetched final.2 ∈ [ fetched w;
                           installUrl :: fetched w;
                           pollUrl :: installUrl :: fetched w;
                           installUrl :: pollUrl :: installUrl :: fetched w ])
  ∧ (buildingLines (console final.2) ≤ buildingLines (console w) + 1)%nat
  ∧ (∀ first w1 importUrl poll w2 second w3,
       lockfilePin lockfile installSpecifier = None →
       inheritedPin lockfile installSpecifier = false →
       isWorkaround packageSemver = false →
       isComplex packageSemver = false →
       fetchCDNResource installUrl (warnedLatest installSpecifier packageSemver w)
         = (Return first, w1) →
       statusCode first = 200 →
       headers first !! "x-import-status" = Some "PENDING" →
       headers first !! "x-import-url" = Some importUrl →
       importUrl ≠ EmptyString →
       fetchCDNResource importUrl
           (logged (LogBuilding installSpecifier packageSemver) w1)
         = (Return poll, w2) →
       statusCode poll = 200 →
       fetchCDNResource installUrl (warnedLatest installSpecifier packageSemver w2)
         = (Return second, w3) →
       statusCode second = 200 →
       (headers second !! "x-import-status" = Some "SUCCESS" →
        resolveDependencyByName installSpecifier packageSemver lockfile true w
        = (Return (mkResolution (body second)
                     (Some (PIKA_CDN +:+ JS.interpolate
                                           (headers second !! "x-pinned-url")))), w3)
        ∧ fetched w3 = installUrl :: qualify PIKA_CDN importUrl
                         :: installUrl :: fetched w)
       ∧ (headers second !! "x-import-status" = Some "PENDING" →
          resolveDependencyByName installSpecifier packageSemver lockfile true w
          = (Throw (FailedToBuild installSpecifier packageSemver), w3))).
Proof.
  cbv zeta. split_and!.
  - intros [|[|n]] Hn; [lia|lia|]. apply resolveDependencyByName_fuel_enough.
  - intros Hpin. rewrite resolveDependencyByName_unfold.
    destruct (resolveActivation _ _ _ canRetry w) as [c w1] eqn:E.
    apply resolveActivation_trace in E
      as [(Hf & _ & Hc) | [(Hf' & _ & Hc') | (pollUrl & Hf'' & _ & ->)]]; [| | |done].
    + exists EmptyString.
      destruct c as [[r|]|e]; cbn [snd]; rewrite ?Hf; [|done|]; among.
    + exists EmptyString.
      destruct c as [[r|]|e]; cbn [snd]; rewrite ?Hf'; [|done|]; among.
    + exists pollUrl. rename Hf'' into Hf.
      destruct c as [[r|]|e]; cbn [snd]; rewrite ?Hf; [among| |among].
      destruct (resolveDependencyByName_last_trace
                  installSpecifier packageSemver lockfile w1 Hpin) as [Hl _].
      rewrite Hf in Hl. among.
  - rewrite resolveDependencyByName_unfold.
    destruct (lockfilePin lockfile installSpecifier) as [url|] eqn:Hpin.
    { rewrite (resolveActivation_pin _ _ _ _ _ _ Hpin).
      destruct (resolveDependencyByUrl url w) as [[r|e] w1] eqn:E;
        apply resolveDependencyByUrl_trace in E as [_ Hb]; cbn [snd]; lia. }
    destruct (resolveActivation _ _ _ canRetry w) as [c w1] eqn:E.
    apply resolveActivation_trace in E
      as [(_ & Hb & Hc) | [(_ & Hb' & Hc') | (pollUrl & _ & Hb'' & ->)]]; [| | |done].
    + destruct c as [[r|]|e]; cbn [snd]; [lia|done|lia].
    + rename Hb' into Hb. assert (Nat.b2n canRetry ≤ 1)%nat by (destruct canRetry; cbn; lia).
      destruct c as [[r|]|e]; cbn [snd]; [lia|done|lia].
    + rename Hb'' into Hb. destruct c as [[r|]|e]; cbn [snd]; [lia| |lia].
      destruct (resolveDependencyByName_last_trace
                  installSpecifier packageSemver lockfile w1 Hpin) as [_ Hl].
      cbv zeta in Hl. lia.
  - intros first w1 importUrl poll w2 second w3
           Hpin Hinh Hw Hc Hl1 H200 Hst Hi Hne Hpoll Hp200 Hl2 Hs200.
    assert (JS.strictEq (headers first !! "x-import-status") "SUCCESS" = false)
      as Hs by (by rewrite Hst).
    assert (negb true || JS.strictEq (headers first !! "x-import-status") "FAIL"
            = false) as Hp by (by rewrite Hst).
    assert (resolveDependencyByName installSpecifier packageSemver lockfile true w
            = resolveDependencyByName installSpecifier packageSemver lockfile false w2)
      as ->.
    { rewrite (resolveDependencyByName_unfold _ _ _ true).
      rewrite (resolveActivation_poll _ _ _ _ _ _ _ Hpin Hinh Hw Hc Hl1 H200 Hs Hp _ Hi Hne).
      by rewrite Hpoll, Hp200. }
    rewrite resolveDependencyByName_unfold. split.
    + intros Hst2. split.
      * rewrite (resolveActivation_success _ _ _ _ _ _ _ Hpin Hinh Hw Hc Hl2 Hs200);
          [done | by rewrite Hst2].
      * apply fetchCDNResource_world in Hl1 as (Hf1 & _ & _).
        apply fetchCDNResource_world in Hpoll as (Hf2 & _ & _).
        apply fetchCDNResource_world in Hl2 as (Hf3 & _ & _).
        rewrite lookupUrl_qualified, warnedLatest_fetched in Hf1, Hf3.
        cbn [fetched logged] in Hf2. congruence.
    + intros Hst2.
      rewrite (resolveActivation_build_failed _ _ _ _ _ _ _ Hpin Hinh Hw Hc Hl2 Hs200);
        [done | by rewrite Hst2 | done].
Qed.

End InstallProperties.

(** ** Tasks *)

Section TaskProperties.

Context `{Env}.

Implicit Types (w : World) (lockfile : option ImportMap).

Lemma runAlone_andThen {A B} (p : Proc A) (k : A → P B) w :
  runAlone (andThen p k w).1 (andThen p k w).2
  = match runAlone p w with
    | (Return a, w') => alone (k a) w'
    | (Throw e, w') => (Throw e, w')
    end.
Proof.
  revert w. induction p as [[a|e]|effect next IH]; intros w; cbn.
  - unfold alone. by destruct (k a w).
  - done.
  - apply IH.
Qed.

(** A sequence that runs alone is the sequence of its parts run alone. *)
Lemma alone_bind {A B} (m : P A) (k : A → P B) w :
  alone (m ≫= k) w = (alone m ≫= λ a, alone (k a)) w.
Proof.
  unfold mbind, P_bind, M_bind. unfold alone at 1.
  destruct (m w) as [p w'] eqn:E.
  assert (alone m w = runAlone p w') as -> by (unfold alone; by rewrite E).
  rewrite <- runAlone_andThen. by destruct (andThen p k w') as [p' w''].
Qed.

Lemma bind_ext {A B} (m1 m2 : M A) (k1 k2 : A → M B) w :
  m1 w = m2 w → (∀ a w', k1 a w' = k2 a w') → (m1 ≫= k1) w = (m2 ≫= k2) w.
Proof.
  intros Hm Hk. unfold mbind, M_bind. rewrite Hm.
  destruct (m2 w) as [[a|e] w']; [apply Hk | done].
Qed.

Lemma alone_ret {A} (a : A) w : alone (mret a : P A) w = (Return a, w).
Proof. done. Qed.

Lemma alone_sync {A} (m : M A) w : alone (sync m) w = m w.
Proof. unfold alone, sync. by destruct (m w). Qed.

Lemma alone_awaitIO {A} (m : M A) w : alone (awaitIO m) w = m w.
Proof. unfold alone, awaitIO. cbn. by destruct (m w). Qed.

Lemma alone_await {A} (callee : P A) w : alone (await callee) w = alone callee w.
Proof.
  unfold await. rewrite alone_bind. unfold mbind at 1, M_bind.
  by destruct (alone callee w) as [[a|e] w'].
Qed.

Section Clock.

(** An answer does not come before its request. *)
Hypothesis latency_nonneg : ∀ n, 0 ≤ latency n.

Lemma alone_got url w : alone (gotP url) w = got url w.
Proof.
  unfold alone, gotP, got, requested, answered, sent. cbn.
  rewrite Z.max_r by (specialize (latency_nonneg (length (requests w))); lia).
  by destruct (network _ _).
Qed.

Lemma alone_fetchCDNResource url w :
  alone (fetchCDNResourceP url) w = fetchCDNResource url w.
Proof.
  unfold fetchCDNResourceP, fetchCDNResource.
  rewrite alone_bind. apply bind_ext; [apply alone_sync|]. intros _ w1.
  rewrite alone_bind. apply bind_ext; [apply alone_sync|]. intros [response|] w2; [done|].
  rewrite alone_bind. apply bind_ext; [apply alone_got|]. intros response w3.
  rewrite alone_bind. apply bind_ext; [apply alone_sync | done].
Qed.

Lemma alone_resolveDependencyByUrl url w :
  alone (resolveDependencyByUrlP url) w = resolveDependencyByUrl url w.
Proof.
  unfold resolveDependencyByUrlP, resolveDependencyByUrl.
  rewrite alone_bind. apply bind_ext; [apply alone_awaitIO|]. intros [entry|] w1; [done|].
  rewrite alone_bind. apply bind_ext.
  { rewrite alone_await. apply alone_fetchCDNResource. }
  intros response w2. destruct (negb (statusCode response =? 200)).
  - rewrite alone_bind. apply bind_ext; [apply alone_sync|]. intros _ w3.
    apply alone_sync.
  - cbv zeta. rewrite alone_bind. apply bind_ext; [|done].
    unfold when. destruct (JS.optIncludes _ _); [apply alone_awaitIO | done].
Qed.

Lemma alone_resolveActivation installSpecifier packageSemver lockfile canRetry w :
  alone (resolveActivationP installSpecifier packageSemver lockfile canRetry) w
  = resolveActivation installSpecifier packageSemver lockfile canRetry w.
Proof.
  unfold resolveActivationP, resolveActivation.
  destruct (lockfilePin lockfile installSpecifier) as [url|].
  { rewrite alone_bind. apply bind_ext; [|done].
    rewrite alone_await. apply alone_resolveDependencyByUrl. }
  destruct (inheritedPin lockfile installSpecifier); [apply alone_sync|].
  rewrite alone_bind. apply bind_ext; [apply alone_sync|]. intros _ w1.
  destruct (isWorkaround packageSemver); [apply alone_sync|].
  destruct (isComplex packageSemver); [apply alone_sync|].
  cbv zeta. rewrite alone_bind. apply bind_ext.
  { rewrite alone_await. apply alone_fetchCDNResource. }
  intros response w2.
  destruct (negb (statusCode response =? 200)); [apply alone_sync|].
  destruct (JS.strictEq _ "SUCCESS"); [done|].
  destruct (negb canRetry || _); [apply alone_sync|].
  rewrite alone_bind. apply bind_ext; [apply alone_sync|]. intros _ w3.
  destruct (negb (JS.truthy _)); [apply alone_sync|].
  rewrite alone_bind. apply bind_ext.
  { rewrite alone_await. apply alone_fetchCDNResource. }
  intros poll w4. destruct (negb (statusCode poll =? 200)); [apply alone_sync | done].
Qed.

(** A resolution that no other task runs beside is the resolution of the
    state-passing reading: same result, same world. *)
Lemma alone_resolveDependencyByName installSpecifier packageSemver lockfile canRetry w :
  alone (resolveDependencyByNameP installSpecifier packageSemver lockfile canRetry) w
  = resolveDependencyByName installSpecifier packageSemver lockfile canRetry w.
Proof.
  unfold resolveDependencyByNameP. cbn [resolveDependencyByNameP_fuel].
  rewrite resolveDependencyByName_unfold, alone_bind.
  unfold mbind at 1, M_bind. rewrite alone_resolveActivation.
  destruct (resolveActivation _ _ _ canRetry w) as [[[r|]|e] w1]; [done| |done].
  rewrite alone_await, resolveDependencyByName_unfold, alone_bind.
  unfold mbind at 1, M_bind. rewrite alone_resolveActivation.
  destruct (resolveActivation _ _ _ false w1) as [[[r|]|e] w2] eqn:E; [done| |done].
  by apply resolveActivation_again in E.
Qed.

End Clock.

(** *** Two activations are enough for a task too *)

Lemma similar_refl {A} (p : Proc A) : similar p p.
Proof. induction p as [c|effect next IH]; cbn; [done|]. intros w. by split. Qed.

Lemma avoids_nothing {A} (p : Proc A) : avoids (λ _, False) p.
Proof.
  induction p as [[a|e]|effect next IH]; cbn; [by intros [] | done | done].
Qed.

Lemma avoids_andThen {A B} (bad : B → Prop) (p : Proc A) (k : A → P B) w :
  (∀ a w', avoids bad (k a w').1) → avoids bad (andThen p k w).1.
Proof.
  intros Hk. revert w. induction p as [[a|e]|effect next IH]; intros w; cbn.
  - apply Hk.
  - done.
  - intros w'. apply IH.
Qed.

Lemma avoids_bind {A B} (bad : B → Prop) (m : P A) (k : A → P B) w :
  (∀ a w', avoids bad (k a w').1) → avoids bad ((m ≫= k) w).1.
Proof.
  intros Hk. unfold mbind, P_bind. destruct (m w) as [p w'].
  by apply avoids_andThen.
Qed.

(** Continuations that do the same on the values the task can return give
    tasks that do the same. *)
Lemma andThen_similar {A B} (bad : A → Prop) (p : Proc A) (k1 k2 : A → P B) w :
  avoids bad p →
  (∀ a w', ¬ bad a → (k1 a w').2 = (k2 a w').2 ∧ similar (k1 a w').1 (k2 a w').1) →
  (andThen p k1 w).2 = (andThen p k2 w).2
  ∧ similar (andThen p k1 w).1 (andThen p k2 w).1.
Proof.
  intros Hp Hk. revert w. induction p as [[a|e]|effect next IH]; intros w; cbn in *.
  - by apply Hk.
  - done.
  - split; [done|]. intros w'.
    destruct (IH w' (Hp w') (effect w')) as [Hw Hs]. by split.
Qed.

Lemma bind_similar {A B} (bad : A → Prop) (m : P A) (k1 k2 : A → P B) w :
  (∀ w', avoids bad (m w').1) →
  (∀ a w', ¬ bad a → (k1 a w').2 = (k2 a w').2 ∧ similar (k1 a w').1 (k2 a w').1) →
  ((m ≫= k1) w).2 = ((m ≫= k2) w).2
  ∧ similar ((m ≫= k1) w).1 ((m ≫= k2) w).1.
Proof.
  intros Hm Hk. unfold mbind, P_bind. specialize (Hm w).
  destruct (m w) as [p w']. by apply andThen_similar with bad.
Qed.

(** Tasks that do the same, followed by the same, do the same. *)
Lemma andThen_similar_left {A B} (p q : Proc A) (k : A → P B) w :
  similar p q →
  (andThen p k w).2 = (andThen q k w).2
  ∧ similar (andThen p k w).1 (andThen q k w).1.
Proof.
  revert q w. induction p as [[a|e]|effect next IH]; intros [c'|effect' next'] w;
    cbn; try done.
  - intros <-. split; [done | apply similar_refl].
  - by intros <-.
  - intros Hpq. split; [done|]. intros w'. destruct (Hpq w') as [-> Hnext].
    destruct (IH w' (next' w') (effect' w') Hnext) as [Hw Hs]. by split.
Qed.

Lemma await_similar {A} (m1 m2 : P A) w :
  (m1 w).2 = (m2 w).2 → similar (m1 w).1 (m2 w).1 →
  (await m1 w).2 = (await m2 w).2 ∧ similar (await m1 w).1 (await m2 w).1.
Proof.
  unfold await, mbind, P_bind.
  destruct (m1 w) as [p1 w1], (m2 w) as [p2 w2]. cbn. intros -> Hs.
  by apply andThen_similar_left.
Qed.

(** With no retry left, an activation does not end with the tail call,
    whatever runs beside it. *)
Lemma resolveActivationP_last installSpecifier packageSemver lockfile w :
  avoids (λ a, a = CallAgain)
         (resolveActivationP installSpecifier packageSemver lockfile false w).1.
Proof.
  unfold resolveActivationP.
  destruct (lockfilePin lockfile installSpecifier) as [url|].
  { apply avoids_bind. by intros r w'. }
  destruct (inheritedPin lockfile installSpecifier); [done|].
  apply avoids_bind. intros _ w1.
  destruct (isWorkaround packageSemver); [done|].
  destruct (isComplex packageSemver); [done|].
  cbv zeta. apply avoids_bind. intros response w2.
  destruct (negb (statusCode response =? 200)); [done|].
  by destruct (JS.strictEq _ "SUCCESS").
Qed.

(** The task bounded by any [fuel >= 2] does the same as the task bounded
    by 2, which is [resolveDependencyByNameP]: the bound is not reached. *)
Lemma resolveDependencyByNameP_fuel_enough n installSpecifier packageSemver lockfile
    canRetry w :
  let bounded := resolveDependencyByNameP_fuel (S (S n)) installSpecifier packageSemver
                                               lockfile canRetry w in
  let task := resolveDependencyByNameP installSpecifier packageSemver
                                       lockfile canRetry w in
  bounded.2 = task.2 ∧ similar bounded.1 task.1.
Proof.
  cbv zeta. unfold resolveDependencyByNameP.
  cbn [resolveDependencyByNameP_fuel].
  apply bind_similar with (λ _, False); [intros; apply avoids_nothing|].
  intros [r|] w1 _; [split; [done | apply similar_refl]|].
  apply await_similar;
    (eapply bind_similar; [intros; apply resolveActivationP_last|]);
    (intros [r|] w2 Hlast; [split; [done | apply similar_refl] | done]).
Qed.

End TaskProperties.

(** ** The lockfile generator *)

Section BatchProperties.

Context `{Env}.

Implicit Types (lockfile : option ImportMap) (g : Generation) (w : World).
Implicit Types (deps : list (string * string)) (schedule : list Pick).

Lemma firstError_snoc outcomes s c :
  firstError (outcomes ++ [(s, c)])
  = match firstError outcomes, c with
    | Some e, _ => Some e
    | None, Throw e => Some e
    | None, Return _ => None
    end.
Proof.
  induction outcomes as [|[s' [r|e]] outcomes IH]; cbn; [by destruct c | done | done].
Qed.

(** No error was recorded: every outcome is a result. *)
Lemma firstError_None outcomes s c :
  firstError outcomes = None → (s, c) ∈ outcomes → ∃ r, c = Return r.
Proof.
  induction outcomes as [|[s' [r|e]] outcomes IH]; cbn; intros He Hin.
  - by apply elem_of_nil in Hin.
  - apply elem_of_cons in Hin as [[= -> ->]|Hin]; eauto.
  - done.
Qed.

Lemma unique_outcome {B} (l : list (string * B)) s b1 b2 :
  NoDup l.*1 → (s, b1) ∈ l → (s, b2) ∈ l → b1 = b2.
Proof.
  induction l as [|[s' b] l IH]; intros Hnd H1 H2.
  - by apply elem_of_nil in H1.
  - rewrite fmap_cons in Hnd. cbn [fst] in Hnd.
    apply NoDup_cons in Hnd as [Hs Hnd].
    apply elem_of_cons in H1 as [E1|H1];
      apply elem_of_cons in H2 as [E2|H2]; simplify_eq.
    + done.
    + destruct Hs. by apply (list_elem_of_fmap_2 fst) in H2.
    + destruct Hs. by apply (list_elem_of_fmap_2 fst) in H1.
    + by apply IH.
Qed.

(** A step neither drops nor repeats a specifier. *)
Lemma step_specifiers lockfile g pick :
  specifiers (step lockfile g pick) ≡ₚ specifiers g.
Proof.
  unfold specifiers. destruct pick as [|i]; cbn [step].
  - destruct (queued g) as [|[s v] rest] eqn:Hq; [by rewrite Hq|].
    destruct (length (running g) <? concurrency)%nat; [|by rewrite Hq].
    destruct (resolveDependencyByNameP s v lockfile true (gen_world g)) as [p w'].
    cbn. by rewrite fmap_app, <- (assoc_L (++)).
  - destruct (running g !! i) as [[s [c|effect next]]|] eqn:Hi; [| |done].
    + assert ((settled (taskEnd s c
                 (mkGeneration (gen_world g) (newLockfile g) (resolutionError g)
                    (queued g) (delete i (running g)) (settled g)))).*1
              = (settled g).*1 ++ [s]) as ->
        by (destruct c; cbn; by rewrite fmap_app).
      assert (running (taskEnd s c
                 (mkGeneration (gen_world g) (newLockfile g) (resolutionError g)
                    (queued g) (delete i (running g)) (settled g)))
              = delete i (running g)) as -> by (by destruct c).
      assert (queued (taskEnd s c
                 (mkGeneration (gen_world g) (newLockfile g) (resolutionError g)
                    (queued g) (delete i (running g)) (settled g)))
              = queued g) as -> by (by destruct c).
      rewrite (delete_Permutation _ _ _ Hi) at 2. rewrite fmap_cons. cbn [fst].
      rewrite <- (assoc_L (++)). done.
    + cbn. rewrite list_fmap_insert. cbn [fst].
      rewrite list_insert_id; [done|]. by rewrite list_lookup_fmap, Hi.
Qed.

(** Every step keeps the generation consistent. *)
Lemma step_consistent deps lockfile g pick :
  NoDup deps.*1 →
  consistent deps lockfile g → consistent deps lockfile (step lockfile g pick).
Proof.
  intros Hnd Hg. pose proof Hg as (Hspec & Herr & Hmap & Hqueued & Hrunning & Hsettled).
  assert (NoDup (specifiers g)) as Hnd' by (by rewrite Hspec).
  unfold specifiers in Hnd'.
  apply NoDup_app in Hnd' as (_ & Hfresh & _).
  pose proof (step_specifiers lockfile g pick) as Hstep.
  rewrite Hspec in Hstep. revert Hstep.
  destruct pick as [|i]; cbn [step].
  - destruct (queued g) as [|[s v] rest] eqn:Hq; [done|].
    destruct (length (running g) <? concurrency)%nat; [|done].
    destruct (resolveDependencyByNameP s v lockfile true (gen_world g))
      as [p w'] eqn:Hstart.
    intros Hstep. split; [done|].
    cbn. split_and!; [done | done | | | done].
    + intros entry Hin. apply Hqueued. by right.
    + intros s' p' [Hin|[= -> ->]%list_elem_of_singleton]%elem_of_app; [eauto|].
      exists v. split; [apply Hqueued; by left|].
      replace p with (resolveDependencyByNameP s v lockfile true (gen_world g)).1
        by (by rewrite Hstart).
      constructor.
  - destruct (running g !! i) as [[s [c|effect next]]|] eqn:Hi; [| |done].
    + assert (s ∉ (settled g).*1) as Hnew.
      { intros Hin. apply (Hfresh _ Hin), elem_of_app. left.
        apply list_elem_of_lookup_2 in Hi. by apply (list_elem_of_fmap_2 fst) in Hi. }
      destruct (Hrunning s (Settled c) (list_elem_of_lookup_2 _ _ _ Hi))
        as (v & Hv & Harises).
      assert (∀ s' p', (s', p') ∈ delete i (running g) →
                ∃ v', (s', v') ∈ deps
                      ∧ arises (resolveDependencyByNameP s' v' lockfile true) p')
        as Hrunning' by (intros s' p' Hin%list_elem_of_delete_inv; eauto).
      assert (∀ s' c', (s', c') ∈ settled g ++ [(s, c)] →
                ∃ v', (s', v') ∈ deps
                      ∧ arises (resolveDependencyByNameP s' v' lockfile true)
                               (Settled c'))
        as Hsettled'.
      { intros s' c' [Hin|[= -> ->]%list_elem_of_singleton]%elem_of_app; eauto. }
      intros Hstep. split; [done|].
      destruct c as [r|e]; cbn; split_and!; try done.
      * rewrite firstError_snoc, <- Herr. by destruct (resolutionError g).
      * intros s' v'. unfold assign. destruct (String.eqb_spec s "__proto__") as [->|Hs].
        -- rewrite Hmap. split; intros (Hne & r' & Hin & Hv'); (split; [done|]);
             exists r'; (split; [|done]).
           ++ apply elem_of_app. by left.
           ++ apply elem_of_app in Hin as [Hin|[= ? ?]%list_elem_of_singleton];
                [done|congruence].
        -- cbn. destruct (decide (s' = s)) as [->|Hne].
           ++ rewrite lookup_insert_eq. split.
              ** intros [= <-]. split; [done|]. exists r. split; [|done].
                 apply elem_of_app. right. by left.
              ** intros (_ & r' & Hin & <-).
                 apply elem_of_app in Hin as [Hin|[= ->]%list_elem_of_singleton];
                   [|done].
                 destruct Hnew. by apply (list_elem_of_fmap_2 fst) in Hin.
           ++ rewrite lookup_insert_ne by done. rewrite Hmap.
              split; intros (Hp & r' & Hin & Hv'); (split; [done|]);
                exists r'; (split; [|done]).
              ** apply elem_of_app. by left.
              ** apply elem_of_app in Hin as [Hin|[= ? ?]%list_elem_of_singleton];
                   [done|congruence].
      * rewrite firstError_snoc, <- Herr. by destruct (resolutionError g).
      * intros s' v'. rewrite Hmap.
        split; intros (Hp & r' & Hin & Hv'); (split; [done|]);
          exists r'; (split; [|done]).
        -- apply elem_of_app. by left.
        -- by apply elem_of_app in Hin as [Hin|[= ? ?]%list_elem_of_singleton].
    + intros Hstep. split; [done|].
      cbn. split_and!; [done | done | done | | done].
      intros s' p' Hin. apply list_elem_of_lookup_1 in Hin as [j Hj].
      apply list_lookup_insert_Some in Hj as [(-> & [= <- <-] & _) | [_ Hj]].
      * destruct (Hrunning s _ (list_elem_of_lookup_2 _ _ _ Hi)) as (v & Hv & Harises).
        exists v. split; [done|]. by apply (arises_resume _ effect next).
      * apply (Hrunning s' p'). by apply list_elem_of_lookup_2 in Hj.
Qed.

Lemma runQueue_consistent deps lockfile schedule w :
  NoDup deps.*1 → consistent deps lockfile (runQueue deps lockfile schedule w).
Proof.
  intros Hnd. unfold runQueue.
  induction schedule as [|pick schedule IH] using rev_ind.
  - cbn. unfold consistent, specifiers. cbn.
    split_and!; try done.
    + intros s v. rewrite lookup_empty. split; [done|].
      by intros (_ & r & Hin%elem_of_nil & _).
    + by intros s p Hin%elem_of_nil.
    + by intros s c Hin%elem_of_nil.
  - rewrite foldl_app. cbn [foldl]. by apply step_consistent.
Qed.

(** *** Every run of the queue can be brought to its end *)

Lemma running_taskEnd s c g : running (taskEnd s c g) = running g.
Proof. by destruct c. Qed.

Lemma queued_taskEnd s c g : queued (taskEnd s c g) = queued g.
Proof. by destruct c. Qed.

(** A running task can be run to its end; the other tasks stay where they
    are. *)
Lemma finish_task lockfile (p : Proc Resolution) : ∀ g i s,
  running g !! i = Some (s, p) →
  ∃ more,
    running (foldl (step lockfile) g more) = delete i (running g)
    ∧ queued (foldl (step lockfile) g more) = queued g.
Proof.
  induction p as [c|effect next IH]; intros g i s Hi.
  - exists [Resume i]. cbn. rewrite Hi.
    by rewrite running_taskEnd, queued_taskEnd.
  - destruct (IH (gen_world g)
                (step lockfile g (Resume i)) i s) as (more & Hr & Hq).
    { cbn. rewrite Hi. cbn. apply list_lookup_insert_eq. by apply lookup_lt_Some in Hi. }
    exists (Resume i :: more). cbn [foldl]. rewrite Hr, Hq. cbn. rewrite Hi. cbn.
    split; [|done].
    apply list_eq. intros j. rewrite !list_lookup_delete.
    destruct (decide (j < i)%nat).
    + by rewrite list_lookup_insert_ne by lia.
    + by rewrite list_lookup_insert_ne by lia.
Qed.

(** The running tasks can all be run to their ends. *)
Lemma finish_running lockfile n : ∀ g,
  length (running g) = n →
  ∃ more,
    running (foldl (step lockfile) g more) = []
    ∧ queued (foldl (step lockfile) g more) = queued g.
Proof.
  induction n as [|n IH]; intros g Hn.
  - exists []. split; [|done]. by apply nil_length_inv.
  - destruct (running g) as [|[s p] rest] eqn:Hr; [done|].
    destruct (finish_task lockfile p g 0 s) as (more1 & Hr1 & Hq1); [by rewrite Hr|].
    destruct (IH (foldl (step lockfile) g more1)) as (more2 & Hr2 & Hq2).
    { rewrite Hr1, Hr. cbn in *. lia. }
    exists (more1 ++ more2). rewrite foldl_app. split; congruence.
Qed.

(** From every point of a run, some continuation brings the queue to
    idle. *)
Lemma reach_idle lockfile n : ∀ g,
  length (queued g) = n →
  ∃ more, idle (foldl (step lockfile) g more) = true.
Proof.
  induction n as [|n IH]; intros g Hn.
  - destruct (finish_running lockfile _ g eq_refl) as (more & Hr & Hq).
    exists more. unfold idle. rewrite Hr, Hq.
    by rewrite (nil_length_inv _ Hn).
  - destruct (finish_running lockfile _ g eq_refl) as (more1 & Hr1 & Hq1).
    set (g1 := foldl (step lockfile) g more1) in *.
    destruct (queued g1) as [|[s v] rest] eqn:Hq; [by rewrite <- Hq1 in Hn|].
    destruct (IH (step lockfile g1 Start)) as (more2 & Hidle).
    { cbn [step]. rewrite Hq, Hr1.
      change (length [] <? concurrency)%nat with true. cbv iota.
      destruct (resolveDependencyByNameP s v lockfile true (gen_world g1)) as [p w'].
      cbn [queued]. rewrite <- Hq1 in Hn. cbn in Hn. lia. }
    exists (more1 ++ Start :: more2). rewrite foldl_app. by cbn [foldl].
Qed.

(** At most [concurrency] tasks are running at any point of a run. *)
Lemma runQueue_concurrency deps lockfile schedule w :
  (length (running (runQueue deps lockfile schedule w)) ≤ concurrency)%nat.
Proof.
  unfold runQueue. induction schedule as [|pick schedule IH] using rev_ind.
  - cbn. unfold concurrency. lia.
  - rewrite foldl_app. cbn [foldl].
    set (g := foldl (step lockfile) _ schedule) in *.
    destruct pick as [|i]; cbn [step].
    + destruct (queued g) as [|[s v] rest]; [done|].
      destruct (Nat.ltb_spec (length (running g)) concurrency) as [Hlt|]; [|done].
      destruct (resolveDependencyByNameP s v lockfile true (gen_world g)) as [p w'].
      cbn. rewrite length_app. cbn. lia.
    + destruct (running g !! i) as [[s [c|effect next]]|] eqn:Hi; [| |done].
      * rewrite running_taskEnd. cbn. rewrite length_delete by eauto. lia.
      * cbn. by rewrite length_insert.
Qed.

(** Once the queue is idle, nothing runs any more. *)
Lemma idle_step lockfile g pick : idle g = true → step lockfile g pick = g.
Proof.
  unfold idle. destruct (queued g) eqn:Hq; [|done].
  destruct (running g) eqn:Hr; [|done]. intros _.
  destruct pick as [|i]; cbn; by rewrite ?Hq, ?Hr.
Qed.

(** At idle every task has ended. *)
Lemma idle_settled deps lockfile g :
  consistent deps lockfile g → idle g = true → (settled g).*1 ≡ₚ deps.*1.
Proof.
  intros (Hspec & _). unfold idle, specifiers in *.
  destruct (queued g); [|done]. destruct (running g); [|done].
  intros _. by rewrite !fmap_nil, !(right_id_L [] (++)) in Hspec.
Qed.

(** C9.  [generateImportMap], for every order in which its queue and the
    event loop may run the tasks (at most 16 at a time, each from one
    [await] to the next), at every point of the run; [webDependencies]
    is the list of the entries of an object, so its specifiers are
    distinct.  Every specifier of
    [webDependencies] is queued, running or ended, once, whatever the
    tasks that ended did; each outcome recorded is one that the
    resolution of its specifier reached.  [resolutionError] is the error
    of the first task that ended with one, in the order in which the
    tasks ended.  The call settles only when the queue is idle, when every
    task has ended: it throws that first error if there is one and
    returns [newLockfile] otherwise, and every run can be continued to
    that point.  [newLockfile] holds, for each specifier other than
    "__proto__" whose resolution returned, the [pinnedUrl] returned; it
    holds nothing else, and nothing for a specifier whose resolution
    failed.  It holds nothing for "__proto__", also when its resolution
    returned: the assignment of line 183 adds no property of that
    name. *)
Theorem generateImportMap_batch deps lockfile schedule w :
  NoDup deps.*1 →
  let g := runQueue deps lockfile schedule w in
  specifiers g ≡ₚ deps.*1
  ∧ (∀ s c, (s, c) ∈ settled g →
       ∃ v, (s, v) ∈ deps
            ∧ arises (resolveDependencyByNameP s v lockfile true) (Settled c))
  ∧ resolutionError g = firstError (settled g)
  ∧ generateImportMap deps lockfile schedule w
    = (if idle g
       then Some (match firstError (settled g) with
                  | Some e => Throw e
                  | None => Return (newLockfile g)
                  end, gen_world g)
       else None)
  ∧ (idle g = true → (settled g).*1 ≡ₚ deps.*1)
  ∧ (∃ more, idle (runQueue deps lockfile (schedule ++ more) w) = true)
  ∧ (∀ s v, imports (newLockfile g) !! s = Some v ↔
            s ≠ "__proto__" ∧ ∃ r, (s, Return r) ∈ settled g ∧ pinnedUrl r = v)
  ∧ (∀ s e, (s, Throw e) ∈ settled g → imports (newLockfile g) !! s = None).
Proof.
  intros Hnd. cbv zeta.
  pose proof (runQueue_consistent deps lockfile schedule w Hnd) as Hg.
  pose proof Hg as (Hspec & Herr & Hmap & _ & _ & Hsettled).
  split_and!; [done | done | done | | | | done |].
  - unfold generateImportMap. by rewrite Herr.
  - by apply idle_settled with lockfile.
  - destruct (reach_idle lockfile _ (runQueue deps lockfile schedule w) eq_refl)
      as (more & Hidle).
    exists more. unfold runQueue in *. by rewrite foldl_app.
  - intros s e Hin.
    destruct (imports (newLockfile _) !! s) as [v|] eqn:Hv; [|done].
    apply Hmap in Hv as (_ & r & Hin' & _).
    assert (NoDup (settled (runQueue deps lockfile schedule w)).*1) as Hnd'.
    { assert (NoDup (specifiers (runQueue deps lockfile schedule w))) as Hs
        by (by rewrite Hspec).
      by apply NoDup_app in Hs as [? _]. }
    by pose proof (unique_outcome _ _ _ _ Hnd' Hin Hin').
Qed.

End BatchProperties.


(** ** The freshness-aware read path *)

Section RuntimeProperties.

Context `{Env}.

Lemma fetchCDN_refresh_offline url cachedResult w :
  network (length (requests w)) url = None →
  fetchCDN_refresh url cachedResult w
  = (match cachedResult with
     | Some c => Return (fromCache c true)
     | None => Throw (RequestError url)
     end, requested url w).
Proof.
  intros Hnet. unfold fetchCDN_refresh. run. rewrite Hnet. by destruct cachedResult.
Qed.

(** C8.  [fetchCDN], for the URL qualified by the origin.  A cached entry
    whose [freshUntil] is not before the current time (in particular, is
    in the future) is returned with [isCached = true] and
    [isStale = false], and the world stays as it is: no request is made.
    When the request fails (it is made only if there is no entry or the
    entry is not fresh), an entry of the cache is returned with
    [isCached = true] and [isStale = true]; without an entry, the error of
    the request is thrown to the caller. *)
Theorem fetchCDN_freshness resourceUrl w :
  let url := qualify SKYPACK_ORIGIN resourceUrl in
  (∀ entry freshUntil,
     resourceCache w !! url = Some entry →
     meta_freshUntil (metadata entry) = Some freshUntil →
     now w ≤ freshUntil →
     fetchCDN resourceUrl w
     = (Return (mkFetchResult (data entry) (meta_headers (metadata entry))
                  (meta_statusCode (metadata entry)) true false), w))
  ∧ (∀ entry,
       resourceCache w !! url = Some entry →
       isFreshAt (meta_freshUntil (metadata entry)) (now w) = false →
       network (length (requests w)) url = None →
       fetchCDN resourceUrl w
       = (Return (mkFetchResult (data entry) (meta_headers (metadata entry))
                    (meta_statusCode (metadata entry)) true true),
          requested url w))
  ∧ (resourceCache w !! url = None →
     network (length (requests w)) url = None →
     fetchCDN resourceUrl w = (Throw (RequestError url), requested url w)).
Proof.
  cbv zeta. split_and!.
  - intros entry freshUntil Hc Hf Hle. unfold fetchCDN.
    unfold mbind, M_bind, cacacheGet, readClock. rewrite Hc. cbv zeta. rewrite Hf.
    unfold isFreshAt. by rewrite (proj2 (Z.leb_le _ _) Hle).
  - intros entry Hc Hf Hnet. unfold fetchCDN.
    unfold mbind, M_bind, cacacheGet, readClock. rewrite Hc. cbv zeta. rewrite Hf.
    by rewrite (fetchCDN_refresh_offline _ _ _ Hnet).
  - intros Hc Hnet. unfold fetchCDN.
    unfold mbind, M_bind, cacacheGet, readClock. rewrite Hc.
    by rewrite (fetchCDN_refresh_offline _ _ _ Hnet).
Qed.

End RuntimeProperties.

(** *** Examples on concrete CDNs *)

(** C1, on the code: the second resolution of a URL in a process is a hit
    of the persistent cache on the entry the first one stored, and its
    [pinnedUrl] is [undefined].  The first resolution of "/foo@1.0.0",
    on an empty cache and a CDN that answers 200 with
    "cache-control: max-age=31536000", returns the qualified URL and
    stores the body with the metadata [{installUrl, typesUrl}]; the
    second reads [metadata.pinnedUrl], which was never written.  The
    same happens when the URL comes from a lockfile pin. *)
Theorem resolveDependencyByUrl_cache_hit_pinnedUrl :
  let first := @resolveDependencyByUrl cacheableCDN "/foo@1.0.0" emptyWorld in
  let second := @resolveDependencyByUrl cacheableCDN "/foo@1.0.0" first.2 in
  let pinned := @resolveDependencyByName cacheableCDN "foo" "^1.0.0"
                  (Some (mkImportMap {[ "foo" := Some "https://cdn.pika.dev/foo@1.0.0" ]}))
                  true first.2 in
  first.1 = Return (mkResolution "export default 1;"
                                 (Some "https://cdn.pika.dev/foo@1.0.0"))
  ∧ second.1 = Return (mkResolution "export default 1;" None)
  ∧ requests second.2 = requests first.2
  ∧ pinned.1 = Return (mkResolution "export default 1;" None)
  ∧ match second.1 with
    | Return r => originQualified pikaOrigin (pinnedUrl r)
    | Throw _ => true
    end = false.
Proof. vm_compute. by split_and!. Qed.

(** C3, on the code: with two sub-path segments the segments come out
    joined by a comma, the array being interpolated as it is.  With one
    segment, as in the examples of the claim, the URL is the expected
    one. *)
Theorem lookupUrl_two_subpath_segments :
  @lookupUrl cacheableCDN "pkg/a/b" "2.1.0" = "https://cdn.pika.dev/pkg@2.1.0/a,/b"
  ∧ @lookupUrl cacheableCDN "pkg/a/b" "2.1.0" ≠ "https://cdn.pika.dev/pkg@2.1.0/a/b"
  ∧ @lookupUrl cacheableCDN "@scope/pkg/a/b" "2.1.0"
    = "https://cdn.pika.dev/@scope/pkg@2.1.0/a,/b"
  ∧ @lookupUrl cacheableCDN "@scope/pkg/sub" "2.1.0"
    = "https://cdn.pika.dev/@scope/pkg@2.1.0/sub"
  ∧ @lookupUrl cacheableCDN "pkg/sub" "2.1.0" = "https://cdn.pika.dev/pkg@2.1.0/sub".
Proof. vm_compute. by split_and!. Qed.

(** C7 as stated fails: on a CDN whose answers carry no [cache-control]
    header, the second resolution of "/foo@1.0.0" goes to the network
    again, and returns the body of the second answer. *)
Lemma resolveDependencyByUrl_twice_uncached :
  let first := @resolveDependencyByUrl uncachedCDN "/foo@1.0.0" emptyWorld in
  let second := @resolveDependencyByUrl uncachedCDN "/foo@1.0.0" first.2 in
  first.1 = Return (mkResolution "export default 1;"
                                 (Some "https://cdn.pika.dev/foo@1.0.0"))
  ∧ second.1 = Return (mkResolution "export default 2;"
                                    (Some "https://cdn.pika.dev/foo@1.0.0"))
  ∧ requests first.2 = ["https://cdn.pika.dev/foo@1.0.0"]
  ∧ requests second.2 = ["https://cdn.pika.dev/foo@1.0.0";
                         "https://cdn.pika.dev/foo@1.0.0"]
  ∧ ¬ (∀ (E : Env) url w r1 w1 r2 w2,
         resolveDependencyByUrl url w = (Return r1, w1) →
         resolveDependencyByUrl url w1 = (Return r2, w2) →
         res_body r2 = res_body r1 ∧ requests w2 = requests w1).
Proof.
  cbv zeta. split_and!; [by vm_compute..|].
  intros Hclaim.
  destruct (@resolveDependencyByUrl uncachedCDN "/foo@1.0.0" emptyWorld)
    as [c1 w1] eqn:E1.
  destruct (@resolveDependencyByUrl uncachedCDN "/foo@1.0.0" w1) as [c2 w2] eqn:E2.
  vm_compute in E1. injection E1 as <- <-.
  vm_compute in E2. injection E2 as <- <-.
  by destruct (Hclaim uncachedCDN "/foo@1.0.0" emptyWorld _ _ _ _ eq_refl eq_refl)
    as [[=] _].
Qed.

(** A range with a space is refused without a request, here with a
    lockfile that pins another specifier. *)
Lemma resolveDependencyByName_validation_witness :
  @resolveDependencyByName offline "b" "1 2" (Some fooLockfile) true emptyWorld
  = (Throw (ComplexSemverError "b" "1 2"), emptyWorld).
Proof.
  apply (@resolveDependencyByName_validation offline "b" "1 2" (Some fooLockfile)
           true emptyWorld).
  - vm_compute. reflexivity.
  - vm_compute. reflexivity.
  - left. reflexivity.
Defined.

(** The pin of "foo" is resolved by the URL resolver, whatever the range. *)
Lemma resolveDependencyByName_pin_witness :
  @resolveDependencyByName offline "foo" "1 2" (Some fooLockfile) true emptyWorld
  = @resolveDependencyByUrl offline
      "https://cdn.pika.dev/pin/foo@v1.0.0-abc/foo.js" emptyWorld.
Proof.
  apply (@resolveDependencyByName_pin offline "foo" "1 2" fooLockfile true
           "https://cdn.pika.dev/pin/foo@v1.0.0-abc/foo.js" emptyWorld).
  - vm_compute. reflexivity.
  - discriminate.
Defined.

(** A cacheable module is served from the persistent cache the second
    time. *)
Lemma resolveDependencyByUrl_twice_witness :
  ∃ r2, @resolveDependencyByUrl cacheableCDN "/foo@1.0.0"
          (@resolveDependencyByUrl cacheableCDN "/foo@1.0.0" emptyWorld).2
        = (Return r2, (@resolveDependencyByUrl cacheableCDN "/foo@1.0.0" emptyWorld).2)
        ∧ res_body r2 = "export default 1;".
Proof.
  destruct (@resolveDependencyByUrl_twice cacheableCDN "/foo@1.0.0" emptyWorld
              (mkResolution "export default 1;" (Some "https://cdn.pika.dev/foo@1.0.0"))
              (@resolveDependencyByUrl cacheableCDN "/foo@1.0.0" emptyWorld).2)
    as (r2 & E & Hb & _).
  - vm_compute. reflexivity.
  - right.
    exists (plainResponse 200 [("cache-control", "max-age=31536000")] "export default 1;"),
      (@fetchCDNResource cacheableCDN "https://cdn.pika.dev/foo@1.0.0" emptyWorld).2.
    split; vm_compute; reflexivity.
  - exists r2. split; [exact E | exact Hb].
Defined.

(** Closes a closed goal by evaluation. *)
Ltac by_evaluation := vm_compute; reflexivity.

(** A resolution of "foo" on a CDN that answers the lookup with PENDING,
    then the poll, then the second lookup with SUCCESS; and on a CDN that
    answers PENDING again. *)
Lemma resolveDependencyByName_two_attempts_witness :
  (@resolveDependencyByName buildingCDN "foo" "^1.0.0" None true emptyWorld).1
  = Return (mkResolution "export default 1;"
              (Some "https://cdn.pika.dev/pin/foo@v1.0.0-abc/foo.js"))
  ∧ (@resolveDependencyByName stuckCDN "foo" "^1.0.0" None true emptyWorld).1
    = Throw (FailedToBuild "foo" "^1.0.0").
Proof.
  split.
  - set (E := buildingCDN).
    set (url := @lookupUrl E "foo" "^1.0.0").
    set (l1 := @fetchCDNResource E url emptyWorld).
    set (p := @fetchCDNResource E "/new/foo@1.0.0"
                (logged (LogBuilding "foo" "^1.0.0") l1.2)).
    set (l2 := @fetchCDNResource E url p.2).
    destruct (@resolveDependencyByName_two_attempts E "foo" "^1.0.0" None true emptyWorld)
      as (_ & _ & _ & Hscenario).
    destruct (Hscenario
                (plainResponse 200 [("x-import-status", "PENDING");
                                    ("x-import-url", "/new/foo@1.0.0")] "")
                l1.2 "/new/foo@1.0.0" (plainResponse 200 [] "") p.2
                (plainResponse 200 [("x-import-status", "SUCCESS");
                                    ("x-pinned-url", "/pin/foo@v1.0.0-abc/foo.js")]
                               "export default 1;")
                l2.2
                ltac:(by_evaluation) ltac:(by_evaluation) ltac:(by_evaluation)
                ltac:(by_evaluation) ltac:(by_evaluation) ltac:(by_evaluation)
                ltac:(by_evaluation) ltac:(by_evaluation) ltac:(discriminate)
                ltac:(by_evaluation) ltac:(by_evaluation) ltac:(by_evaluation)
                ltac:(by_evaluation))
      as [Hsuccess _].
    destruct (Hsuccess ltac:(by_evaluation)) as [-> _]. reflexivity.
  - set (E := stuckCDN).
    set (url := @lookupUrl E "foo" "^1.0.0").
    set (pending := plainResponse 200 [("x-import-status", "PENDING");
                                       ("x-import-url", "/new/foo@1.0.0")] "").
    set (l1 := @fetchCDNResource E url emptyWorld).
    set (p := @fetchCDNResource E "/new/foo@1.0.0"
                (logged (LogBuilding "foo" "^1.0.0") l1.2)).
    set (l2 := @fetchCDNResource E url p.2).
    destruct (@resolveDependencyByName_two_attempts E "foo" "^1.0.0" None true emptyWorld)
      as (_ & _ & _ & Hscenario).
    destruct (Hscenario pending l1.2 "/new/foo@1.0.0" pending p.2 pending l2.2
                ltac:(by_evaluation) ltac:(by_evaluation) ltac:(by_evaluation)
                ltac:(by_evaluation) ltac:(by_evaluation) ltac:(by_evaluation)
                ltac:(by_evaluation) ltac:(by_evaluation) ltac:(discriminate)
                ltac:(by_evaluation) ltac:(by_evaluation) ltac:(by_evaluation)
                ltac:(by_evaluation))
      as [_ Hfail].
    rewrite (Hfail ltac:(by_evaluation)). reflexivity.
Defined.

(** The protocol errors, on a CDN that sends no poll location and on one
    that refuses the poll. *)
Lemma resolveDependencyByName_protocol_errors_witness :
  (@resolveDependencyByName silentCDN "foo" "^1.0.0" None true emptyWorld).1
  = Throw ImportUrlExpected
  ∧ (@resolveDependencyByName refusingCDN "foo" "^1.0.0" None true emptyWorld).1
    = Throw (UnexpectedResponse 500 "https://cdn.pika.dev/new/foo@1.0.0").
Proof.
  split.
  - set (l1 := @fetchCDNResource silentCDN (@lookupUrl silentCDN "foo" "^1.0.0")
                 emptyWorld).
    destruct (@resolveDependencyByName_protocol_errors silentCDN "foo" "^1.0.0" None
                emptyWorld (plainResponse 200 [] "") l1.2
                ltac:(by_evaluation) ltac:(by_evaluation) ltac:(by_evaluation)
                ltac:(by_evaluation) ltac:(by_evaluation) ltac:(by_evaluation)
                ltac:(by_evaluation) ltac:(by_evaluation)) as [Hnone _].
    destruct (Hnone ltac:(by_evaluation)) as [-> _]. reflexivity.
  - set (E := refusingCDN).
    set (l1 := @fetchCDNResource E (@lookupUrl E "foo" "^1.0.0") emptyWorld).
    set (p := @fetchCDNResource E "/new/foo@1.0.0"
                (logged (LogBuilding "foo" "^1.0.0") l1.2)).
    destruct (@resolveDependencyByName_protocol_errors E "foo" "^1.0.0" None emptyWorld
                (plainResponse 200 [("x-import-status", "PENDING");
                                    ("x-import-url", "/new/foo@1.0.0")] "")
                l1.2
                ltac:(by_evaluation) ltac:(by_evaluation) ltac:(by_evaluation)
                ltac:(by_evaluation) ltac:(by_evaluation) ltac:(by_evaluation)
                ltac:(by_evaluation) ltac:(by_evaluation)) as [_ Hpoll].
    destruct (Hpoll "/new/foo@1.0.0" (plainResponse 500 [] "Internal Server Error") p.2
                ltac:(by_evaluation) ltac:(discriminate) ltac:(by_evaluation)
                ltac:(discriminate)) as [-> _].
    reflexivity.
Defined.


(** "/foo" before and after it expires, and a URL that is not cached,
    without a network. *)
Lemma fetchCDN_freshness_witness :
  @fetchCDN offline "/foo" (worldWithFoo 1000)
  = (Return (mkFetchResult "export default 0;" (Some ∅) (Some 200) true false),
     worldWithFoo 1000)
  ∧ (@fetchCDN offline "/foo" (worldWithFoo 9000)).1
    = Return (mkFetchResult "export default 0;" (Some ∅) (Some 200) true true)
  ∧ (@fetchCDN offline "/bar" (worldWithFoo 9000)).1
    = Throw (RequestError "https://cdn.skypack.dev/bar").
Proof.
  set (entry := mkCacheEntry "export default 0;"
                  (mkMetadata None None None (Some ∅) (Some 200) (Some 5000))).
  split_and!.
  - destruct (@fetchCDN_freshness offline "/foo" (worldWithFoo 1000)) as (Hfresh & _ & _).
    apply (Hfresh entry 5000); [by_evaluation | reflexivity | vm_compute; discriminate].
  - destruct (@fetchCDN_freshness offline "/foo" (worldWithFoo 9000)) as (_ & Hstale & _).
    rewrite (Hstale entry ltac:(by_evaluation) ltac:(by_evaluation) ltac:(reflexivity)).
    reflexivity.
  - destruct (@fetchCDN_freshness offline "/bar" (worldWithFoo 9000)) as (_ & _ & Hnone).
    rewrite (Hnone ltac:(by_evaluation) ltac:(reflexivity)). reflexivity.
Defined.

(** On a CDN that knows no package, the batch of "a" and of "b" with a
    refused range: the task of "b" ends first, while that of "a" waits for
    its answer, and the call throws the error of "b".  On a CDN that has
    every package built, the batch with "__proto__": both resolutions
    return, and the map returned has the entry of "a" alone. *)
Lemma generateImportMap_batch_witness :
  fst <$> @generateImportMap missingCDN twoDependencies None bothStarted emptyWorld
  = Some (Throw (ComplexSemverError "b" "1 2"))
  ∧ (settled (@runQueue builtCDN protoDependencies None oneThenOther emptyWorld)).*1
    = ["__proto__"; "a"]
  ∧ firstError (settled (@runQueue builtCDN protoDependencies None oneThenOther
                           emptyWorld)) = None
  ∧ imports (newLockfile (@runQueue builtCDN protoDependencies None oneThenOther
                            emptyWorld)) !! "__proto__" = None
  ∧ fst <$> @generateImportMap builtCDN protoDependencies None oneThenOther emptyWorld
    = Some (Return (mkImportMap
                      {[ "a" := Some "https://cdn.pika.dev/pin/v1.0.0-abc/mod.js" ]})).
Proof.
  split.
  - destruct (@generateImportMap_batch missingCDN twoDependencies None bothStarted
                emptyWorld) as (_ & _ & _ & -> & _).
    + refine (bool_decide_unpack _ _). vm_compute. exact I.
    + by_evaluation.
  - destruct (@generateImportMap_batch builtCDN protoDependencies None oneThenOther
                emptyWorld) as (_ & _ & _ & Hresult & _ & _ & Hmap & _).
    + refine (bool_decide_unpack _ _). vm_compute. exact I.
    + split_and!; [by_evaluation | by_evaluation | |].
      * destruct (imports _ !! "__proto__") as [v|] eqn:Hv; [|reflexivity].
        apply Hmap in Hv as [Hne _]. by destruct Hne.
      * rewrite Hresult. by_evaluation.
Defined.

(** * Further properties of the two modules *)

(** ** The CDN client *)

Section ClientProperties.

Context `{Env}.

Implicit Types (w : World) (url : string).


(** The client makes a request exactly when the memo has nothing for the
    qualified URL, and then one request, for that URL. *)
Theorem fetchCDNResource_requests url w :
  requests (fetchCDNResource url w).2
  = match inMemoryCDNCache w !! qualify PIKA_CDN url with
    | Some _ => requests w
    | None => qualify PIKA_CDN url :: requests w
    end.
Proof.
  unfold fetchCDNResource. run.
  destruct (inMemoryCDNCache w !! qualify PIKA_CDN url) as [r|]; [done|].
  destruct (network _ _) as [r|]; [|done]. by destruct (JS.optIncludes _ _).
Qed.

Lemma fetchCDNResource_throw_cases url w e :
  (fetchCDNResource url w).1 = Throw e ↔
  e = RequestError (qualify PIKA_CDN url)
  ∧ inMemoryCDNCache w !! qualify PIKA_CDN url = None
  ∧ network (length (requests w)) (qualify PIKA_CDN url) = None.
Proof.
  unfold fetchCDNResource. run.
  destruct (inMemoryCDNCache w !! qualify PIKA_CDN url) as [r|]; cbn.
  { split; [done | by intros (_ & ? & _)]. }
  destruct (network _ _) as [r|]; cbn.
  - destruct (JS.optIncludes _ _); cbn; (split; [done | by intros (_ & _ & ?)]).
  - split; [by intros [= <-] | by intros (-> & _)].
Qed.

(** The client throws only when the request itself fails: every answer,
    whatever its status, is returned. *)
Theorem fetchCDNResource_throws url w e :
  (fetchCDNResource url w).1 = Throw e ↔
  e = RequestError (qualify PIKA_CDN url)
  ∧ inMemoryCDNCache w !! qualify PIKA_CDN url = None
  ∧ network (length (requests w)) (qualify PIKA_CDN url) = None.
Proof. apply fetchCDNResource_throw_cases. Qed.

(** An answer that carries a TTL signal is memoized: the next call for the
    URL returns it again without a request.  The status plays no part:
    an error answer with a TTL signal is memoized as well. *)
Theorem fetchCDNResource_memoizes url w response w1 :
  fetchCDNResource url w = (Return response, w1) →
  JS.optIncludes (headers response !! "cache-control") "max-age=" = true →
  (fetchCDNResource url w1).1 = Return response
  ∧ requests (fetchCDNResource url w1).2 = requests w1.
Proof.
  intros E Httl.
  assert (inMemoryCDNCache w1 !! qualify PIKA_CDN url = Some response) as Hm.
  { revert E. unfold fetchCDNResource. run.
    destruct (inMemoryCDNCache w !! qualify PIKA_CDN url) as [r|] eqn:Hm.
    - by intros [= <- <-].
    - destruct (network _ _) as [r|]; [|done].
      destruct (JS.optIncludes (headers r !! "cache-control") "max-age=") eqn:Hr;
        intros [= <- <-]; cbn; [by rewrite lookup_insert_eq | congruence]. }
  by apply fetchCDNResource_memo.
Qed.

(** Without the TTL signal the answer is not memoized: the memo is left
    as it was. *)
Theorem fetchCDNResource_no_ttl url w response w1 :
  fetchCDNResource url w = (Return response, w1) →
  JS.optIncludes (headers response !! "cache-control") "max-age=" = false →
  inMemoryCDNCache w1 = inMemoryCDNCache w.
Proof.
  unfold fetchCDNResource. run.
  destruct (inMemoryCDNCache w !! qualify PIKA_CDN url) as [r|] eqn:Hm.
  - by intros [= <- <-].
  - destruct (network _ _) as [r|]; [|done].
    destruct (JS.optIncludes (headers r !! "cache-control") "max-age=") eqn:Hr;
      intros [= <- <-]; [congruence | done].
Qed.

End ClientProperties.

(** ** The URL resolver *)

Section ResolverProperties.

Context `{Env}.

Implicit Types (w : World) (url : string).

(** The path and the absolute URL are the same resolution. *)
Theorem resolveDependencyByUrl_qualified url w :
  resolveDependencyByUrl (qualify PIKA_CDN url) w = resolveDependencyByUrl url w
  ∧ fetchCDNResource (qualify PIKA_CDN url) w = fetchCDNResource url w.
Proof.
  unfold resolveDependencyByUrl, fetchCDNResource. by rewrite !qualify_idemp.
Qed.


(** What the URL resolver writes to the persistent cache on a miss.  When
    the call returns, the CDN client has returned, for the qualified URL,
    an answer with status 200; the result is made of the body of that
    answer and the qualified URL; and, if that answer has a TTL signal,
    the cache is the one before the call with the body of that answer
    stored under the qualified URL, with a metadata that holds this URL
    as [installUrl], the types URL made of the x-typescript-types header
    of that answer, and no [pinnedUrl]; without the signal the cache is
    as it was.  When the call throws, the cache is as it was. *)
Theorem resolveDependencyByUrl_writes url w c w1 :
  let installUrl := qualify PIKA_CDN url in
  resourceCache w !! installUrl = None →
  resolveDependencyByUrl url w = (c, w1) →
  match c with
  | Return r =>
      ∃ response w',
        fetchCDNResource installUrl w = (Return response, w')
        ∧ statusCode response = 200
        ∧ r = mkResolution (body response) (Some installUrl)
        ∧ resourceCache w1
          = if JS.optIncludes (headers response !! "cache-control") "max-age="
            then
              <[installUrl :=
                  mkCacheEntry (body response)
                    (mkMetadata None (Some installUrl)
                       (if JS.truthy (headers response !! "x-typescript-types")
                        then Some (PIKA_CDN +:+ JS.interpolate
                                     (headers response !! "x-typescript-types"))
                        else headers response !! "x-typescript-types")
                       None None None)]> (resourceCache w)
            else resourceCache w
  | Throw _ => resourceCache w1 = resourceCache w
  end.
Proof.
  cbv zeta. intros Hc. rewrite (resolveDependencyByUrl_miss _ _ Hc). cbv zeta.
  destruct (fetchCDNResource _ w) as [[response|e] w'] eqn:Hf;
    apply fetchCDNResource_world in Hf as (_ & _ & Hrc); [|by intros [= <- <-]].
  destruct (Z.eqb_spec (statusCode response) 200) as [H200|Hn200];
    intros [= <- <-]; [|done].
  exists response, w'. split_and!; [done | done | done |].
  destruct (JS.optIncludes (headers response !! "cache-control") "max-age=");
    cbn; by rewrite Hrc.
Qed.


(** How the URL resolver fails on a miss.  A failure of the CDN client is
    passed on as it is.  An answer of the client with a status other than
    200 makes the resolver throw the error that carries the status and
    the body of that answer and the qualified URL, after the same was
    written to the console as a warning, and after nothing else. *)
Theorem resolveDependencyByUrl_errors url w :
  let installUrl := qualify PIKA_CDN url in
  resourceCache w !! installUrl = None →
  (∀ e w', fetchCDNResource installUrl w = (Throw e, w') →
     resolveDependencyByUrl url w = (Throw e, w'))
  ∧ (∀ response w',
       fetchCDNResource installUrl w = (Return response, w') →
       statusCode response ≠ 200 →
       resolveDependencyByUrl url w
       = (Throw (FailedToResolve (statusCode response) installUrl (body response)),
          logged (WarnFailedToResolve (statusCode response) installUrl
                                      (body response)) w')).
Proof.
  cbv zeta. intros Hc. rewrite (resolveDependencyByUrl_miss _ _ Hc). cbv zeta.
  split.
  - by intros e w' ->.
  - intros response w' -> Hn200. by destruct (Z.eqb_spec (statusCode response) 200).
Qed.

(** [clearCache] empties the persistent cache and leaves the memo: a URL
    whose answer is memoized is resolved after it without a request,
    from the memoized answer. *)
Theorem resolveDependencyByUrl_after_clearCache url w response :
  inMemoryCDNCache w !! qualify PIKA_CDN url = Some response →
  statusCode response = 200 →
  let cleared := (clearCache w).2 in
  resourceCache cleared = ∅
  ∧ (resolveDependencyByUrl url cleared).1
    = Return (mkResolution (body response) (Some (qualify PIKA_CDN url)))
  ∧ requests (resolveDependencyByUrl url cleared).2 = requests w.
Proof.
  intros Hm H200. cbv zeta. split; [done|].
  assert (resourceCache (clearCache w).2 !! qualify PIKA_CDN url = None) as Hc
    by apply lookup_empty.
  rewrite (resolveDependencyByUrl_miss _ _ Hc). cbv zeta.
  assert (inMemoryCDNCache (clearCache w).2 !! qualify PIKA_CDN (qualify PIKA_CDN url)
          = Some response) as Hm' by (by rewrite qualify_idemp).
  destruct (fetchCDNResource_memo _ _ _ Hm') as [Hr Hq].
  destruct (fetchCDNResource _ _) as [c w'] eqn:Hf. cbn [fst snd] in Hr, Hq. subst c.
  rewrite H200. cbn [Z.eqb Pos.eqb fst snd].
  split; [done|]. by destruct (JS.optIncludes _ _).
Qed.

End ResolverProperties.

(** ** The specifier resolver: the lookup path *)

Section LookupProperties.

Context `{Env}.

Implicit Types (w : World) (lockfile : option ImportMap).
Implicit Types (installSpecifier packageSemver : string).

Lemma resolveActivation_lookup_cache installSpecifier packageSemver lockfile canRetry w :
  lockfilePin lockfile installSpecifier = None →
  resourceCache (resolveActivation installSpecifier packageSemver lockfile canRetry w).2
  = resourceCache w.
Proof.
  intros Hpin. unfold resolveActivation. rewrite Hpin.
  destruct (inheritedPin lockfile installSpecifier); [done|].
  unfold mbind at 1, M_bind at 1. rewrite when_latest. cbv beta iota zeta.
  assert (resourceCache (warnedLatest installSpecifier packageSemver w)
          = resourceCache w) as Hw by (unfold warnedLatest; by case_match).
  destruct (isWorkaround packageSemver); [done|].
  destruct (isComplex packageSemver); [done|].
  unfold mbind at 1, M_bind at 1.
  destruct (fetchCDNResource _ _) as [[response|e] w1] eqn:Hl;
    apply fetchCDNResource_world in Hl as (_ & _ & Hl); [|cbn; congruence].
  destruct (negb (statusCode response =? 200)); [cbn; congruence|].
  destruct (JS.strictEq _ "SUCCESS"); [cbn; congruence|].
  destruct (negb canRetry || _); [cbn; congruence|].
  unfold mbind at 1, M_bind at 1, consoleWrite. cbv beta iota.
  destruct (negb (JS.truthy _)); [cbn; congruence|].
  unfold mbind, M_bind.
  destruct (fetchCDNResource _ _) as [[poll|e] w2] eqn:Hp;
    apply fetchCDNResource_world in Hp as (_ & _ & Hp); cbn [resourceCache logged] in Hp;
    [|cbn; congruence].
  destruct (negb (statusCode poll =? 200)); cbn; congruence.
Qed.

(** On the lookup path the persistent cache is neither read nor written:
    whatever the outcome, it is left as it was. *)
Theorem resolveDependencyByName_lookup_cache
    installSpecifier packageSemver lockfile canRetry w :
  lockfilePin lockfile installSpecifier = None →
  resourceCache (resolveDependencyByName installSpecifier packageSemver
                                         lockfile canRetry w).2
  = resourceCache w.
Proof.
  intros Hpin. rewrite resolveDependencyByName_unfold.
  pose proof (resolveActivation_lookup_cache installSpecifier packageSemver
                lockfile canRetry w Hpin) as H1.
  destruct (resolveActivation _ _ _ canRetry w) as [[[r|]|e] w1]; cbn [snd] in *;
    [done| |done].
  rewrite resolveDependencyByName_unfold.
  pose proof (resolveActivation_lookup_cache installSpecifier packageSemver
                lockfile false w1 Hpin) as H2.
  destruct (resolveActivation _ _ _ false w1) as [[[r|]|e] w2] eqn:E; cbn [snd] in *;
    [congruence| |congruence].
  by apply resolveActivation_again in E.
Qed.

Lemma resolveActivation_lookup_result installSpecifier packageSemver lockfile canRetry
    w r w1 :
  lockfilePin lockfile installSpecifier = None →
  resolveActivation installSpecifier packageSemver lockfile canRetry w
    = (Return (Done r), w1) →
  ∃ response,
    fetchCDNResource (lookupUrl installSpecifier packageSemver)
                     (warnedLatest installSpecifier packageSemver w)
      = (Return response, w1)
    ∧ statusCode response = 200
    ∧ headers response !! "x-import-status" = Some "SUCCESS"
    ∧ r = mkResolution (body response)
            (Some (PIKA_CDN +:+ JS.interpolate (headers response !! "x-pinned-url"))).
Proof.
  intros Hpin. unfold resolveActivation. rewrite Hpin.
  destruct (inheritedPin lockfile installSpecifier); [done|].
  unfold mbind at 1, M_bind at 1. rewrite when_latest. cbv beta iota zeta.
  destruct (isWorkaround packageSemver); [done|].
  destruct (isComplex packageSemver); [done|].
  unfold mbind at 1, M_bind at 1.
  destruct (fetchCDNResource _ _) as [[response|e] wl]; [|done].
  destruct (Z.eqb_spec (statusCode response) 200) as [H200|]; cbn [negb]; [|done].
  destruct (JS.strictEq (headers response !! "x-import-status") "SUCCESS") eqn:Hs.
  - intros [= <- <-]. exists response. split_and!; [done|done| |done].
    destruct (headers response !! "x-import-status") as [st|]; [|done].
    cbn in Hs. by apply String.eqb_eq in Hs as ->.
  - destruct (negb canRetry || _); [done|].
    unfold mbind at 1, M_bind at 1, consoleWrite. cbv beta iota.
    destruct (negb (JS.truthy _)); [done|].
    unfold mbind, M_bind. destruct (fetchCDNResource _ _) as [[poll|e] w2]; [|done].
    by destruct (negb (statusCode poll =? 200)).
Qed.

(** A resolution that succeeds on the lookup path is made of the answer
    the CDN client returned to its last call, which was for the lookup
    URL (the first activation's lookup, or the second's, after the
    poll): that answer has status 200 and the build status SUCCESS, the
    body returned is its body, and the [pinnedUrl] returned is the
    origin followed by its x-pinned-url header, so it is a defined
    string on the origin; when the header is missing it is the origin
    followed by "undefined". *)
Theorem resolveDependencyByName_lookup_pinnedUrl
    installSpecifier packageSemver lockfile canRetry w r w1 :
  lockfilePin lockfile installSpecifier = None →
  resolveDependencyByName installSpecifier packageSemver lockfile canRetry w
    = (Return r, w1) →
  originQualified PIKA_CDN (pinnedUrl r) = true
  ∧ ∃ response w0,
      fetchCDNResource (lookupUrl installSpecifier packageSemver)
                       (warnedLatest installSpecifier packageSemver w0)
        = (Return response, w1)
      ∧ (w0 = w
         ∨ canRetry = true
           ∧ ∃ pollUrl,
               fetched w0
               = pollUrl :: lookupUrl installSpecifier packageSemver :: fetched w)
      ∧ statusCode response = 200
      ∧ headers response !! "x-import-status" = Some "SUCCESS"
      ∧ res_body r = body response
      ∧ pinnedUrl r
        = Some (PIKA_CDN +:+ match headers response !! "x-pinned-url" with
                             | Some path => path
                             | None => "undefined"
                             end).
Proof.
  intros Hpin E.
  assert (∃ c w0, resolveActivation installSpecifier packageSemver lockfile c w0
                  = (Return (Done r), w1)
                  ∧ (w0 = w
                     ∨ canRetry = true
                       ∧ ∃ pollUrl,
                           fetched w0
                           = pollUrl :: lookupUrl installSpecifier packageSemver
                               :: fetched w))
    as (c & w0 & Ha & Hw0).
  { rewrite resolveDependencyByName_unfold in E.
    destruct (resolveActivation _ _ _ canRetry w) as [[[r'|]|e] wa] eqn:E1;
      [simplify_eq; eauto | | done].
    apply resolveDependencyByName_last in E. exists false, wa. split; [done|].
    right.
    apply resolveActivation_trace in E1
      as [(_ & _ & ?) | [(_ & _ & ?) | (pollUrl & Hf & _ & ->)]];
      [done | done | eauto | done]. }
  apply resolveActivation_lookup_result in Ha as (response & Hl & H200 & Hs & ->);
    [|done].
  split; [apply prefix_append|]. exists response, w0. by split_and!.
Qed.

End LookupProperties.

(** ** The lookup URL *)

Section LookupUrlProperties.

Context `{Env}.

Implicit Types (name scope sub packageSemver : string).

Lemma includes_slash_cons c s :
  JS.includes (String c s) "/" = false → c ≠ "/"%char ∧ JS.includes s "/" = false.
Proof.
  cbn [JS.includes String.prefix]. destruct (ascii_dec "/" c) as [<-|Hne].
  - by destruct s.
  - cbn. intros ->. split; [congruence | done].
Qed.

(** A string without a slash is the one element of its [split('/')]. *)
Lemma split1_no_slash s :
  JS.includes s "/" = false → JS.split1 "/" s = (s, []).
Proof.
  induction s as [|c s IH]; [done|].
  intros [Hc Hs]%includes_slash_cons. cbn [JS.split1]. rewrite (IH Hs).
  by destruct (Ascii.eqb_spec c "/").
Qed.

(** [split('/')] cuts at the first slash. *)
Lemma split1_slash a b :
  JS.includes a "/" = false →
  JS.split1 "/" (a +:+ String "/" b)
  = (a, (JS.split1 "/" b).1 :: (JS.split1 "/" b).2).
Proof.
  induction a as [|c a IH].
  - intros _. change (EmptyString +:+ String "/" b) with (String "/" b).
    cbn [JS.split1]. destruct (JS.split1 "/" b). reflexivity.
  - intros [Hc Ha]%includes_slash_cons.
    change (String c a +:+ String "/" b) with (String c (a +:+ String "/" b)).
    cbn [JS.split1]. rewrite (IH Ha). by destruct (Ascii.eqb_spec c "/").
Qed.

Lemma append_assoc (a b c : string) : (a +:+ b) +:+ c = a +:+ (b +:+ c).
Proof.
  induction a as [|x a IH]; [done|].
  change ((String x a +:+ b) +:+ c) with (String x ((a +:+ b) +:+ c)).
  by rewrite IH.
Qed.

Lemma append_empty (a : string) : a +:+ EmptyString = a.
Proof.
  induction a as [|x a IH]; [done|].
  change (String x a +:+ EmptyString) with (String x (a +:+ EmptyString)).
  by rewrite IH.
Qed.

Lemma append_slash a b : a +:+ "/" +:+ b = a +:+ String "/" b.
Proof. done. Qed.

(** For a package without a scope and without a sub-path, the lookup URL
    is origin/name@range, the URL of the earlier module. *)
Theorem lookupUrl_unscoped_package name packageSemver :
  JS.startsWith name "@" = false →
  JS.includes name "/" = false →
  lookupUrl name packageSemver = PIKA_CDN +:+ "/" +:+ name +:+ "@" +:+ packageSemver
  ∧ lookupUrl name packageSemver = Legacy.lookupUrl name packageSemver.
Proof.
  intros Hat Hs. unfold lookupUrl, Legacy.lookupUrl.
  rewrite (split1_no_slash _ Hs), Hat. cbn.
  by rewrite append_empty.
Qed.

(** For a scoped package without a sub-path, the lookup URL is
    origin/@scope/name@range, the URL of the earlier module. *)
Theorem lookupUrl_scoped_package scope name packageSemver :
  JS.startsWith scope "@" = true →
  JS.includes scope "/" = false →
  JS.includes name "/" = false →
  lookupUrl (scope +:+ "/" +:+ name) packageSemver
  = PIKA_CDN +:+ "/" +:+ scope +:+ "/" +:+ JS.interpolate (Some name)
      +:+ "@" +:+ packageSemver
  ∧ lookupUrl (scope +:+ "/" +:+ name) packageSemver
    = Legacy.lookupUrl (scope +:+ "/" +:+ name) packageSemver.
Proof.
  intros Hat Hsc Hn. unfold lookupUrl, Legacy.lookupUrl.
  rewrite (append_slash scope name), (split1_slash _ _ Hsc), (split1_no_slash _ Hn), Hat.
  cbn.
  rewrite append_empty. split; [done|]. rewrite <- append_slash. by rewrite !append_assoc.
Qed.

(** One sub-path segment is re-appended after the range, for a package
    with or without a scope. *)
Theorem lookupUrl_one_subpath scope name sub packageSemver :
  JS.includes scope "/" = false →
  JS.includes name "/" = false →
  JS.includes sub "/" = false →
  sub ≠ EmptyString →
  (JS.startsWith name "@" = false →
   lookupUrl (name +:+ "/" +:+ sub) packageSemver
   = PIKA_CDN +:+ "/" +:+ name +:+ "@" +:+ packageSemver +:+ "/" +:+ sub)
  ∧ (JS.startsWith scope "@" = true →
     lookupUrl (scope +:+ "/" +:+ name +:+ "/" +:+ sub) packageSemver
     = PIKA_CDN +:+ "/" +:+ scope +:+ "/" +:+ name +:+ "@" +:+ packageSemver
         +:+ "/" +:+ sub).
Proof.
  intros Hsc Hn Hs Hne. split.
  - intros Hat. unfold lookupUrl.
    rewrite (append_slash name sub), (split1_slash _ _ Hn), (split1_no_slash _ Hs), Hat.
    cbn [fst snd head tail fmap list_fmap JS.filterBoolean omap list_omap].
    by rewrite (truthy_nonempty _ Hne).
  - intros Hat. unfold lookupUrl.
    rewrite (append_slash scope), (split1_slash _ _ Hsc).
    rewrite (append_slash name sub), (split1_slash _ _ Hn), (split1_no_slash _ Hs), Hat.
    cbn [fst snd head tail fmap list_fmap JS.filterBoolean omap list_omap].
    by rewrite (truthy_nonempty _ Hne).
Qed.

(** A scope alone, with no package name after it, gives a URL for the
    package "undefined" of that scope. *)
Theorem lookupUrl_scope_without_name scope packageSemver :
  JS.startsWith scope "@" = true →
  JS.includes scope "/" = false →
  lookupUrl scope packageSemver
  = PIKA_CDN +:+ "/" +:+ scope +:+ "/undefined@" +:+ packageSemver.
Proof.
  intros Hat Hs. unfold lookupUrl. rewrite (split1_no_slash _ Hs), Hat. cbn.
  by rewrite append_empty.
Qed.

(** Empty segments are dropped: a trailing slash changes nothing. *)
Theorem lookupUrl_trailing_slash name packageSemver :
  JS.startsWith name "@" = false →
  JS.includes name "/" = false →
  lookupUrl (name +:+ "/") packageSemver = lookupUrl name packageSemver.
Proof.
  intros Hat Hs. unfold lookupUrl.
  rewrite (split1_slash _ _ Hs), (split1_no_slash _ Hs), Hat. done.
Qed.

End LookupUrlProperties.

(** ** The earlier lockfile module *)

Section LegacyProperties.

Context `{Env}.

Implicit Types (w : World) (lockfile : option ImportMap).
Implicit Types (installSpecifier packageSemver : string).
Implicit Types (client : string → M Response) (warn info : ConsoleLine → M ()).

Lemma legacy_again client warn info installSpecifier packageSemver lockfile canRetry
    w w' :
  Legacy.resolveActivation client warn info installSpecifier packageSemver
                           lockfile canRetry w
    = (Return CallAgain, w') →
  canRetry = true.
Proof.
  destruct canRetry; [done|]. unfold Legacy.resolveActivation.
  destruct (lockfilePin lockfile installSpecifier) as [url|].
  - unfold mbind, M_bind, mret, M_ret.
    by destruct (Legacy.resolveDependencyByUrl client warn url w) as [[r|e] w1].
  - destruct (inheritedPin lockfile installSpecifier); [done|].
    unfold mbind at 1, M_bind at 1.
    destruct (when _ _ w) as [[[]|e] w0]; [|done].
    destruct (isWorkaround packageSemver); [done|].
    destruct (isComplex packageSemver); [done|].
    unfold mbind, M_bind, mret, M_ret, throw. cbv zeta.
    destruct (client _ _) as [[response|e] w1]; [|done].
    destruct (negb (statusCode response =? 200)); [done|].
    by destruct (JS.strictEq _ "SUCCESS").
Qed.

(** The earlier [resolveDependencyByName] needs two activations at most
    as well, whatever the CDN client and the logger do: bounded by any
    [fuel >= 2] it returns, and returns the same. *)
Theorem legacy_fuel_enough client warn info fuel installSpecifier packageSemver
    lockfile canRetry w :
  (2 ≤ fuel)%nat →
  Legacy.resolveDependencyByName_fuel client warn info fuel
                                      installSpecifier packageSemver
                                      lockfile canRetry w
  = Some (Legacy.resolveDependencyByName client warn info
                                         installSpecifier packageSemver
                                         lockfile canRetry w).
Proof.
  destruct fuel as [|[|n]]; [lia | lia | intros _].
  unfold Legacy.resolveDependencyByName. cbn [Legacy.resolveDependencyByName_fuel].
  destruct (Legacy.resolveActivation _ _ _ _ _ _ canRetry w) as [[[r|]|e] w1];
    [done| |done].
  destruct (Legacy.resolveActivation _ _ _ _ _ _ false w1) as [[[r|]|e] w2] eqn:E;
    [done| |done].
  by apply legacy_again in E.
Qed.

(** In the earlier module too, a pinned specifier is resolved by the URL
    resolver alone, whatever the semver range and [canRetry] are. *)
Theorem legacy_pin client warn info installSpecifier packageSemver lockfile canRetry
    url w :
  lockfilePin lockfile installSpecifier = Some url →
  Legacy.resolveDependencyByName client warn info installSpecifier packageSemver
                                 lockfile canRetry w
  = Legacy.resolveDependencyByUrl client warn url w.
Proof.
  intros Hpin. unfold Legacy.resolveDependencyByName.
  cbn [Legacy.resolveDependencyByName_fuel]. unfold Legacy.resolveActivation.
  rewrite Hpin. unfold mbind, M_bind, mret, M_ret.
  by destruct (Legacy.resolveDependencyByUrl client warn url w) as [[r|e] w1].
Qed.

Lemma legacy_activation_agrees installSpecifier packageSemver lockfile canRetry w :
  lockfilePin lockfile installSpecifier ≠ None
  ∨ Legacy.lookupUrl installSpecifier packageSemver
    = lookupUrl installSpecifier packageSemver →
  Legacy.resolveActivation fetchCDNResource consoleWrite consoleWrite
                           installSpecifier packageSemver lockfile canRetry w
  = resolveActivation installSpecifier packageSemver lockfile canRetry w.
Proof.
  intros Hsame. unfold Legacy.resolveActivation, resolveActivation.
  destruct (lockfilePin lockfile installSpecifier) as [url|]; [done|].
  destruct Hsame as [? | ->]; done.
Qed.

Lemma legacy_resolution_agrees
    installSpecifier packageSemver lockfile canRetry w :
  lockfilePin lockfile installSpecifier ≠ None
  ∨ Legacy.lookupUrl installSpecifier packageSemver
    = lookupUrl installSpecifier packageSemver →
  Legacy.resolveDependencyByName fetchCDNResource consoleWrite consoleWrite
                                 installSpecifier packageSemver lockfile canRetry w
  = resolveDependencyByName installSpecifier packageSemver lockfile canRetry w.
Proof.
  intros Hsame.
  unfold Legacy.resolveDependencyByName, resolveDependencyByName.
  cbn [Legacy.resolveDependencyByName_fuel resolveDependencyByName_fuel].
  rewrite (legacy_activation_agrees _ _ _ canRetry w Hsame).
  destruct (resolveActivation _ _ _ canRetry w) as [[[r|]|e] w1]; [done| |done].
  by rewrite (legacy_activation_agrees _ _ _ false w1 Hsame).
Qed.

(** Given the CDN client of index.ts for './util.js' and, for the logger,
    one whose [warn] and [info] write the message to the console, the two
    modules resolve alike whenever the specifier is pinned, and whenever
    their lookup URLs are the same, which they are for a package without
    a sub-path: same result, same effects. *)
Theorem legacy_resolveDependencyByName_agrees
    installSpecifier packageSemver lockfile canRetry w :
  lockfilePin lockfile installSpecifier ≠ None
  ∨ Legacy.lookupUrl installSpecifier packageSemver
    = lookupUrl installSpecifier packageSemver →
  Legacy.resolveDependencyByName fetchCDNResource consoleWrite consoleWrite
                                 installSpecifier packageSemver lockfile canRetry w
  = resolveDependencyByName installSpecifier packageSemver lockfile canRetry w.
Proof. apply legacy_resolution_agrees. Qed.

End LegacyProperties.

(** ** The lockfile generator, further *)

Section GeneratorProperties.

Context `{Env}.

Implicit Types (w : World) (lockfile : option ImportMap) (g : Generation).
Implicit Types (deps : list (string * string)) (schedule : list Pick).

(** A map returned by [generateImportMap], whatever the order in which the
    tasks ran, has an entry for every specifier of the batch other than
    "__proto__", and for nothing else. *)
Theorem generateImportMap_success_domain deps lockfile schedule w m w1 :
  NoDup deps.*1 →
  generateImportMap deps lockfile schedule w = Some (Return m, w1) →
  dom (imports m) = list_to_set deps.*1 ∖ {["__proto__"]}.
Proof.
  intros Hnd. unfold generateImportMap.
  pose proof (runQueue_consistent deps lockfile schedule w Hnd) as Hg.
  pose proof Hg as (_ & Herr & Hmap & _).
  destruct (idle _) eqn:Hidle; [|done].
  pose proof (idle_settled _ _ _ Hg Hidle) as Hall.
  destruct (resolutionError _) as [e|] eqn:He; [done|]. intros [= <- <-].
  apply set_eq. intros s.
  rewrite elem_of_dom, elem_of_difference, elem_of_list_to_set, not_elem_of_singleton.
  split.
  - intros [v (Hne & r & Hin & _)%Hmap]. split; [|done].
    rewrite <- Hall. by apply (list_elem_of_fmap_2 fst) in Hin.
  - intros [Hin Hne]. rewrite <- Hall in Hin.
    apply list_elem_of_fmap in Hin as ([s' c] & -> & Hin). cbn in *.
    destruct (firstError_None _ _ _ (eq_sym Herr) Hin) as [r ->].
    exists (pinnedUrl r). apply Hmap. eauto.
Qed.

Lemma quiet_andThen {A B} (p : Proc A) (k : A → P B) w a b :
  quiet w a p → quietly (k a) w b →
  (andThen p k w).2 = w ∧ quiet w b (andThen p k w).1.
Proof.
  intros Hp Hk. induction p as [c|effect next IH]; cbn in *.
  - by subst c.
  - destruct Hp as [Heff Hnext]. split; [done|]. rewrite Heff. by apply IH.
Qed.

Lemma quietly_bind {A B} (m : P A) (k : A → P B) w a b :
  quietly m w a → quietly (k a) w b → quietly (m ≫= k) w b.
Proof.
  unfold quietly at 1 3. unfold mbind, P_bind.
  destruct (m w) as [p w']. cbn. intros [-> Hp] Hk. by apply quiet_andThen with a.
Qed.

Lemma quietly_ret {A} (a : A) w : quietly (mret a) w a.
Proof. done. Qed.

Lemma quietly_awaitIO {A} (m : M A) w a : m w = (Return a, w) → quietly (awaitIO m) w a.
Proof. intros Hm. unfold quietly, awaitIO. cbn. by rewrite Hm. Qed.

Lemma quietly_await {A} (callee : P A) w a : quietly callee w a → quietly (await callee) w a.
Proof.
  intros Hc. unfold await. apply quietly_bind with a; [done|].
  apply quietly_bind with (); [by apply quietly_awaitIO | apply quietly_ret].
Qed.

(** The resolution of a specifier pinned to a URL that the cache holds
    reads the cache and does nothing else. *)
Lemma quietly_pinned installSpecifier packageSemver lockfile canRetry w url entry :
  lockfilePin lockfile installSpecifier = Some url →
  resourceCache w !! qualify PIKA_CDN url = Some entry →
  quietly (resolveDependencyByNameP installSpecifier packageSemver lockfile canRetry) w
          (mkResolution (data entry) (meta_pinnedUrl (metadata entry))).
Proof.
  intros Hpin Hc. unfold resolveDependencyByNameP. cbn [resolveDependencyByNameP_fuel].
  apply quietly_bind
    with (Done (mkResolution (data entry) (meta_pinnedUrl (metadata entry))));
    [|apply quietly_ret].
  unfold resolveActivationP. rewrite Hpin.
  apply quietly_bind with (mkResolution (data entry) (meta_pinnedUrl (metadata entry)));
    [|apply quietly_ret].
  apply quietly_await. unfold resolveDependencyByUrlP.
  apply quietly_bind with (Some entry); [|apply quietly_ret].
  apply quietly_awaitIO. unfold cacacheGet. by rewrite Hc.
Qed.

Section Offline.

Variables (deps : list (string * string)) (lockfile : option ImportMap) (w : World).

Hypothesis Hall : ∀ s v, (s, v) ∈ deps →
  ∃ url entry, lockfilePin lockfile s = Some url
               ∧ resourceCache w !! qualify PIKA_CDN url = Some entry.

Lemma step_offline g pick :
  offline_run deps lockfile w g → offline_run deps lockfile w (step lockfile g pick).
Proof.
  intros Hg. pose proof Hg as (Hw & Hqueued & Hrunning & Hsettled).
  destruct pick as [|i]; cbn [step].
  - destruct (queued g) as [|[s v] rest] eqn:Hq; [done|].
    destruct (length (running g) <? concurrency)%nat; [|done].
    destruct (Hall s v) as (url & entry & Hpin & Hc); [apply Hqueued; by left|].
    destruct (quietly_pinned s v lockfile true w url entry Hpin Hc) as [Hw' Hp].
    rewrite Hw.
    destruct (resolveDependencyByNameP s v lockfile true w) as [p w'].
    cbn in Hw', Hp. subst w'. split_and!; cbn; [done | | | done].
    + intros entry' Hin. apply Hqueued. by right.
    + intros s' p' [Hin|[= -> ->]%list_elem_of_singleton]%elem_of_app; eauto.
  - destruct (running g !! i) as [[s [c|effect next]]|] eqn:Hi; [| |done].
    + destruct (Hrunning s _ (list_elem_of_lookup_2 _ _ _ Hi))
        as (url & entry & Hpin & Hc & Hp).
      cbn in Hp. subst c. cbn. split_and!; cbn; [done | done | |].
      * intros s' p' Hin%list_elem_of_delete_inv. eauto.
      * intros s' c' [Hin|[= -> ->]%list_elem_of_singleton]%elem_of_app; eauto.
    + destruct (Hrunning s _ (list_elem_of_lookup_2 _ _ _ Hi))
        as (url & entry & Hpin & Hc & Heff & Hp).
      rewrite Hw in *. split_and!; cbn; [done | done | | done].
      intros s' p' Hin. apply list_elem_of_lookup_1 in Hin as [j Hj].
      apply list_lookup_insert_Some in Hj as [(-> & [= <- <-] & _) | [_ Hj]].
      * eauto 6.
      * apply (Hrunning s' p'). by apply list_elem_of_lookup_2 in Hj.
Qed.

Lemma runQueue_offline schedule :
  offline_run deps lockfile w (runQueue deps lockfile schedule w).
Proof.
  unfold runQueue. induction schedule as [|pick schedule IH] using rev_ind.
  - split_and!; cbn; [done | done | |].
    + by intros s p Hin%elem_of_nil.
    + by intros s c Hin%elem_of_nil.
  - rewrite foldl_app. cbn [foldl]. by apply step_offline.
Qed.

End Offline.

(** A batch whose every specifier is pinned by the lockfile to a URL the
    persistent cache holds is generated without the network, whatever the
    order in which the tasks run: the world stays as it was all along, no
    request is made, every run can be continued to its end, and a run
    that has ended returns a map that gives each specifier other than
    "__proto__" the [pinnedUrl] of the metadata stored for its pin. *)
Theorem generateImportMap_offline deps lockfile schedule w :
  NoDup deps.*1 →
  (∀ s v, (s, v) ∈ deps →
     ∃ url entry, lockfilePin lockfile s = Some url
                  ∧ resourceCache w !! qualify PIKA_CDN url = Some entry) →
  gen_world (runQueue deps lockfile schedule w) = w
  ∧ (∃ more, is_Some (generateImportMap deps lockfile (schedule ++ more) w))
  ∧ ∀ c w1, generateImportMap deps lockfile schedule w = Some (c, w1) →
      w1 = w
      ∧ ∃ m, c = Return m
             ∧ ∀ s v, (s, v) ∈ deps → s ≠ "__proto__" →
                 ∃ url entry,
                   lockfilePin lockfile s = Some url
                   ∧ resourceCache w !! qualify PIKA_CDN url = Some entry
                   ∧ imports m !! s = Some (meta_pinnedUrl (metadata entry)).
Proof.
  intros Hnd Hall.
  pose proof (runQueue_offline deps lockfile w Hall schedule)
    as (Hw & _ & _ & Hsettled).
  pose proof (runQueue_consistent deps lockfile schedule w Hnd) as Hg.
  pose proof Hg as (_ & Herr & Hmap & _).
  split_and!; [done| |].
  - destruct (reach_idle lockfile _ (runQueue deps lockfile schedule w) eq_refl)
      as (more & Hidle).
    exists more. unfold generateImportMap, runQueue in *.
    rewrite foldl_app, Hidle. eauto.
  - intros c w1. unfold generateImportMap.
    destruct (idle _) eqn:Hidle; [|done].
    pose proof (idle_settled _ _ _ Hg Hidle) as Hended.
    assert (firstError (settled (runQueue deps lockfile schedule w)) = None) as He.
    { destruct (firstError _) as [e|] eqn:He; [|done].
      assert (∃ s, (s, Throw e) ∈ settled (runQueue deps lockfile schedule w))
        as [s Hin].
      { clear -He. induction (settled _) as [|[s [r|e']] l IH]; [done| |].
        - destruct (IH He) as [s' Hin]. exists s'. by right.
        - cbn in He. simplify_eq. exists s. by left. }
      by destruct (Hsettled _ _ Hin) as (url & entry & _ & _ & ?). }
    rewrite Herr, He. intros [= <- <-]. split; [done|].
    eexists. split; [done|]. intros s v Hin Hne.
    assert (s ∈ (settled (runQueue deps lockfile schedule w)).*1) as Hs.
    { rewrite Hended. by apply (list_elem_of_fmap_2 fst) in Hin. }
    apply list_elem_of_fmap in Hs as ([s' c] & -> & Hs). cbn in *.
    destruct (Hsettled _ _ Hs) as (url & entry & Hpin & Hc & ->).
    exists url, entry. split_and!; [done | done |]. apply Hmap. eauto.
Qed.

End GeneratorProperties.

(** ** The freshness-aware read path, further *)

Section ReadPathProperties.

Context `{Env}.

Implicit Types (w : World) (url resourceUrl : string).

Lemma fetchCDN_unfold resourceUrl w :
  let url := qualify SKYPACK_ORIGIN resourceUrl in
  fetchCDN resourceUrl w
  = match resourceCache w !! url with
    | Some c =>
        if servedFresh url w then (Return (fromCache c false), w)
        else fetchCDN_refresh url (Some c) w
    | None => fetchCDN_refresh url None w
    end.
Proof.
  cbv zeta. unfold fetchCDN, servedFresh. unfold mbind, M_bind, cacacheGet, readClock.
  destruct (resourceCache w !! _) as [c|]; [|done].
  cbv zeta. by destruct (isFreshAt _ _).
Qed.

Lemma fetchCDN_refresh_online url cachedResult w response :
  network (length (requests w)) url = Some response →
  fetchCDN_refresh url cachedResult w
  = (Return (mkFetchResult (body response) (Some (headers response))
               (Some (statusCode response)) false false),
     match headers response !! "cache-control" ≫= Regex.matchMaxAge with
     | Some seconds =>
         (cacachePut url (body response)
            (mkMetadata None None None (Some (headers response))
               (Some (statusCode response))
               (freshUntilAfter (now (requested url w)) (Regex.parseInt seconds)))
            (requested url w)).2
     | None => requested url w
     end).
Proof.
  intros Hnet. unfold fetchCDN_refresh, tryCatch, got.
  unfold mbind at 1; unfold M_bind at 1. unfold mbind at 1; unfold M_bind at 1.
  cbv beta. rewrite Hnet. unfold mret at 1; unfold M_ret at 1. cbv beta iota.
  destruct (headers response !! "cache-control" ≫= Regex.matchMaxAge); by run.
Qed.

Lemma fetchCDN_throw_cases resourceUrl w e :
  let url := qualify SKYPACK_ORIGIN resourceUrl in
  (fetchCDN resourceUrl w).1 = Throw e ↔
  resourceCache w !! url = None
  ∧ network (length (requests w)) url = None
  ∧ e = RequestError url.
Proof.
  cbv zeta. rewrite fetchCDN_unfold. cbv zeta.
  destruct (network (length (requests w)) (qualify SKYPACK_ORIGIN resourceUrl))
    as [response|] eqn:Hnet.
  - destruct (resourceCache w !! _) as [c|].
    + destruct (servedFresh _ w); [|rewrite (fetchCDN_refresh_online _ _ _ _ Hnet)];
        cbn; (split; [done | by intros (? & _)]).
    + rewrite (fetchCDN_refresh_online _ _ _ _ Hnet). cbn.
      split; [done | by intros (_ & ? & _)].
  - destruct (resourceCache w !! _) as [c|].
    + destruct (servedFresh _ w); [|rewrite (fetchCDN_refresh_offline _ _ _ Hnet)];
        cbn; (split; [done | by intros (? & _)]).
    + rewrite (fetchCDN_refresh_offline _ _ _ Hnet). cbn.
      split; [by intros [= <-] | by intros (_ & _ & ->)].
Qed.

(** [fetchCDN] throws exactly when the cache has no entry for the URL and
    the request fails, and then the error of the request: with an entry,
    whatever its age and shape, it returns. *)
Theorem fetchCDN_throws resourceUrl w e :
  let url := qualify SKYPACK_ORIGIN resourceUrl in
  (fetchCDN resourceUrl w).1 = Throw e ↔
  resourceCache w !! url = None
  ∧ network (length (requests w)) url = None
  ∧ e = RequestError url.
Proof. apply fetchCDN_throw_cases. Qed.

(** After [clearCache], [fetchCDN] has nothing to fall back on: it makes
    a request, returns the answer if there is one, and throws the error
    of the request otherwise. *)
Theorem fetchCDN_after_clearCache resourceUrl w :
  let url := qualify SKYPACK_ORIGIN resourceUrl in
  let cleared := (clearCache w).2 in
  requests (fetchCDN resourceUrl cleared).2 = url :: requests w
  ∧ (fetchCDN resourceUrl cleared).1
    = match network (length (requests w)) url with
      | Some response =>
          Return (mkFetchResult (body response) (Some (headers response))
                    (Some (statusCode response)) false false)
      | None => Throw (RequestError url)
      end.
Proof.
  cbv zeta. rewrite fetchCDN_unfold. cbv zeta.
  change (resourceCache (clearCache w).2) with (∅ : gmap string CacheEntry).
  rewrite lookup_empty.
  destruct (network (length (requests w)) (qualify SKYPACK_ORIGIN resourceUrl))
    as [response|] eqn:Hnet.
  - rewrite (fetchCDN_refresh_online _ _ (clearCache w).2 _ Hnet). cbn [fst snd].
    split; [|done].
    by destruct (headers response !! "cache-control" ≫= Regex.matchMaxAge).
  - by rewrite (fetchCDN_refresh_offline _ _ (clearCache w).2 Hnet).
Qed.

(** [loadByUrl] never throws: it returns [{error}] exactly when the cache
    has no entry for the URL and the request fails, with the error of the
    request, and the body with the two flags otherwise. *)
Theorem loadByUrl_never_throws resourceUrl w :
  let url := qualify SKYPACK_ORIGIN resourceUrl in
  ∃ r, (loadByUrl resourceUrl w).1 = Return r
       ∧ ∀ e, r = LoadError e ↔
              resourceCache w !! url = None
              ∧ network (length (requests w)) url = None
              ∧ e = RequestError url.
Proof.
  cbv zeta. unfold loadByUrl, tryCatch.
  unfold mbind at 1; unfold M_bind at 1.
  pose proof (fetchCDN_throw_cases resourceUrl w) as Ht. cbv zeta in Ht.
  destruct (fetchCDN resourceUrl w) as [[r|e'] w1]; cbn [fst] in *.
  - eexists. split; [done|]. intros e. rewrite <- Ht. by split.
  - eexists. split; [done|]. intros e. rewrite <- Ht. split; congruence.
Qed.

Section LookupBySpecifier.

Variable parseRawPackageImport : string → string * option string.
Variable printed : string → string.

(** [lookupBySpecifier] never throws.  It returns the error of the request
    exactly when the cache has no entry for the URL and the request
    fails.  When the answer comes from a cached entry whose metadata has
    no headers (fresh, or stale because the request failed), it returns
    the error of reading a header off [undefined], not the cached body. *)
Theorem lookupBySpecifier_never_throws spec semverMap w :
  let url := qualify SKYPACK_ORIGIN
               (specifierPath parseRawPackageImport printed spec semverMap) in
  ∃ r, (lookupBySpecifier parseRawPackageImport printed spec semverMap w).1 = Return r
       ∧ (∀ e, r = LookupError (Rejected e) ↔
               resourceCache w !! url = None
               ∧ network (length (requests w)) url = None
               ∧ e = RequestError url)
       ∧ (r = LookupError HeadersUndefined ↔
          ∃ c, resourceCache w !! url = Some c
               ∧ meta_headers (metadata c) = None
               ∧ (servedFresh url w = true
                  ∨ network (length (requests w)) url = None)).
Proof.
  cbv zeta. unfold lookupBySpecifier, tryCatch. cbv zeta.
  set (path := specifierPath parseRawPackageImport printed spec semverMap).
  unfold mbind at 1; unfold M_bind at 1.
  rewrite fetchCDN_unfold. cbv zeta.
  set (url := qualify SKYPACK_ORIGIN path).
  destruct (network (length (requests w)) url) as [response|] eqn:Hnet;
    destruct (resourceCache w !! url) as [c|] eqn:Hc;
    try destruct (servedFresh url w) eqn:Hfresh;
    rewrite ?(fetchCDN_refresh_online _ _ _ _ Hnet),
            ?(fetchCDN_refresh_offline _ _ _ Hnet);
    cbn [fst snd fromCache fr_headers];
    try destruct (meta_headers (metadata c)) as [hs|] eqn:Hh;
    cbn [fst]; eexists; (split; [reflexivity|]); split;
    try (intros e; split; [done | intros (? & ? & ?); congruence]);
    try (split; [done | intros (c' & ? & ? & [?|?]); congruence]);
    try (split; [intros _; exists c; auto | done]).
  all: intros e; split; [by intros [= <-] | by intros (_ & _ & ->)].
Qed.

End LookupBySpecifier.

End ReadPathProperties.

(** ** The installer *)

Lemma prefix_iff (p s : string) :
  String.prefix p s = true ↔ ∃ rest, s = p +:+ rest.
Proof.
  revert s. induction p as [|c p IH]; intros s.
  - split; [intros _; by exists s | by destruct s].
  - destruct s as [|c' s]; cbn [String.prefix].
    + split; [done | by intros [rest [=]]].
    + destruct (ascii_dec c c') as [<-|Hne].
      * rewrite IH. split; intros [rest Hr]; exists rest.
        -- by rewrite Hr.
        -- by injection Hr.
      * split; [done | intros [rest Hr]; injection Hr; congruence].
Qed.

(** An import belongs to a package exactly when it is the package name
    or the package name, a slash and anything: a name that only starts
    like the package ("react-dom" for "react") does not. *)
Theorem isImportOfPackage_iff (importUrl packageName : string) :
  isImportOfPackage importUrl packageName = true ↔
  importUrl = packageName ∨ ∃ rest, importUrl = packageName +:+ "/" +:+ rest.
Proof.
  unfold isImportOfPackage, JS.startsWith. rewrite orb_true_iff, String.eqb_eq, prefix_iff.
  split.
  - intros [-> | [rest ->]]; [by left | right; exists rest].
    clear. induction packageName as [|c p IH]; [done|].
    change (String c p +:+ "/" +:+ rest) with (String c (p +:+ "/" +:+ rest)).
    change ((String c p +:+ "/") +:+ rest) with (String c ((p +:+ "/") +:+ rest)).
    by rewrite IH.
  - intros [-> | [rest ->]]; [by left | right; exists rest].
    clear. induction packageName as [|c p IH]; [done|].
    change (String c p +:+ "/" +:+ rest) with (String c (p +:+ "/" +:+ rest)).
    change ((String c p +:+ "/") +:+ rest) with (String c ((p +:+ "/") +:+ rest)).
    by rewrite IH.
Qed.

(** ** Examples for the further properties *)


Lemma fetchCDNResource_memoizes_witness :
  let w1 := (@fetchCDNResource cacheableCDN "/foo@1.0.0" emptyWorld).2 in
  (@fetchCDNResource cacheableCDN "/foo@1.0.0" w1).1
  = Return (plainResponse 200 [("cache-control", "max-age=31536000")]
                          "export default 1;")
  ∧ requests (@fetchCDNResource cacheableCDN "/foo@1.0.0" w1).2 = requests w1.
Proof.
  cbv zeta.
  apply (@fetchCDNResource_memoizes cacheableCDN "/foo@1.0.0" emptyWorld); by_evaluation.
Defined.

Lemma fetchCDNResource_no_ttl_witness :
  inMemoryCDNCache (@fetchCDNResource uncachedCDN "/foo@1.0.0" emptyWorld).2 = ∅.
Proof.
  apply (@fetchCDNResource_no_ttl uncachedCDN "/foo@1.0.0" emptyWorld
           (plainResponse 200 [] "export default 1;")); by_evaluation.
Defined.

(** The first resolution of "/foo@1.0.0" on a CDN whose answers carry a
    TTL signal stores the body of the answer, and nothing else. *)
Lemma resolveDependencyByUrl_writes_witness :
  resourceCache (@resolveDependencyByUrl cacheableCDN "/foo@1.0.0" emptyWorld).2
  = {[ "https://cdn.pika.dev/foo@1.0.0" :=
         mkCacheEntry "export default 1;"
           (mkMetadata None (Some "https://cdn.pika.dev/foo@1.0.0") None
                       None None None) ]}.
Proof.
  pose proof (@resolveDependencyByUrl_writes cacheableCDN "/foo@1.0.0" emptyWorld
                (Return (mkResolution "export default 1;"
                           (Some "https://cdn.pika.dev/foo@1.0.0")))
                (@resolveDependencyByUrl cacheableCDN "/foo@1.0.0" emptyWorld).2
                ltac:(by_evaluation) ltac:(by_evaluation))
    as (response & w' & Hf & _ & _ & ->).
  vm_compute in Hf. injection Hf as <- _. by_evaluation.
Defined.


(** A URL that the CDN answers with 404. *)
Lemma resolveDependencyByUrl_errors_witness :
  (@resolveDependencyByUrl missingCDN "/nothing@1.0.0" emptyWorld).1
  = Throw (FailedToResolve 404 "https://cdn.pika.dev/nothing@1.0.0" "Not Found")
  ∧ console (@resolveDependencyByUrl missingCDN "/nothing@1.0.0" emptyWorld).2
    = [WarnFailedToResolve 404 "https://cdn.pika.dev/nothing@1.0.0" "Not Found"].
Proof.
  destruct (@resolveDependencyByUrl_errors missingCDN "/nothing@1.0.0" emptyWorld
              ltac:(by_evaluation)) as [_ Hanswer].
  rewrite (Hanswer (plainResponse 404 [] "Not Found")
             (@fetchCDNResource missingCDN "https://cdn.pika.dev/nothing@1.0.0"
                emptyWorld).2
             ltac:(by_evaluation) ltac:(discriminate)).
  split; by_evaluation.
Defined.

Lemma resolveDependencyByUrl_after_clearCache_witness :
  let w := (@resolveDependencyByUrl cacheableCDN "/foo@1.0.0" emptyWorld).2 in
  (@resolveDependencyByUrl cacheableCDN "/foo@1.0.0" (clearCache w).2).1
  = Return (mkResolution "export default 1;" (Some "https://cdn.pika.dev/foo@1.0.0"))
  ∧ requests (@resolveDependencyByUrl cacheableCDN "/foo@1.0.0" (clearCache w).2).2
    = requests w.
Proof.
  cbv zeta.
  apply (@resolveDependencyByUrl_after_clearCache cacheableCDN "/foo@1.0.0"
           (@resolveDependencyByUrl cacheableCDN "/foo@1.0.0" emptyWorld).2
           (plainResponse 200 [("cache-control", "max-age=31536000")]
                          "export default 1;")); by_evaluation.
Defined.

Lemma resolveDependencyByName_lookup_cache_witness :
  resourceCache (@resolveDependencyByName buildingCDN "foo" "^1.0.0" None true
                   worldWithPin).2
  = resourceCache worldWithPin.
Proof.
  apply (@resolveDependencyByName_lookup_cache buildingCDN). by_evaluation.
Defined.

(** The resolution of "a" on a CDN that has every package built is made
    of the answer to its one lookup. *)
Lemma resolveDependencyByName_lookup_pinnedUrl_witness :
  let final := @resolveDependencyByName builtCDN "a" "1.0.0" None true emptyWorld in
  ∃ response,
    @fetchCDNResource builtCDN "https://cdn.pika.dev/a@1.0.0" emptyWorld
    = (Return response, final.2)
    ∧ final.1 = Return (mkResolution (body response)
                          (Some "https://cdn.pika.dev/pin/v1.0.0-abc/mod.js")).
Proof.
  cbv zeta.
  destruct (@resolveDependencyByName_lookup_pinnedUrl builtCDN "a" "1.0.0" None true
              emptyWorld
              (mkResolution "export default 1;"
                            (Some "https://cdn.pika.dev/pin/v1.0.0-abc/mod.js"))
              (@resolveDependencyByName builtCDN "a" "1.0.0" None true emptyWorld).2
              ltac:(by_evaluation) ltac:(by_evaluation))
    as (_ & response & w0 & Hl & [->|[_ [pollUrl Hpoll]]] & _ & _ & Hb & _).
  - exists response. split; [exact Hl|].
    cbn [res_body] in Hb. rewrite <- Hb. by_evaluation.
  - exfalso. apply (f_equal length) in Hpoll. cbn [length] in Hpoll.
    apply fetchCDNResource_world in Hl as (Hf & _ & _).
    rewrite warnedLatest_fetched in Hf. apply (f_equal length) in Hf.
    cbn [length] in Hf.
    assert (length (fetched (@resolveDependencyByName builtCDN "a" "1.0.0" None true
                               emptyWorld).2) = 1%nat) as Hone by by_evaluation.
    lia.
Defined.

Lemma lookupUrl_unscoped_package_witness :
  @lookupUrl builtCDN "preact" "^10.0.0" = "https://cdn.pika.dev/preact@^10.0.0".
Proof.
  apply (@lookupUrl_unscoped_package builtCDN "preact" "^10.0.0"); by_evaluation.
Defined.

Lemma lookupUrl_scoped_package_witness :
  @lookupUrl builtCDN "@scope/pkg" "2.1.0" = "https://cdn.pika.dev/@scope/pkg@2.1.0".
Proof.
  apply (@lookupUrl_scoped_package builtCDN "@scope" "pkg" "2.1.0"); by_evaluation.
Defined.

Lemma lookupUrl_one_subpath_witness :
  @lookupUrl builtCDN "pkg/sub" "2.1.0" = "https://cdn.pika.dev/pkg@2.1.0/sub"
  ∧ @lookupUrl builtCDN "@scope/pkg/sub" "2.1.0"
    = "https://cdn.pika.dev/@scope/pkg@2.1.0/sub".
Proof.
  destruct (@lookupUrl_one_subpath builtCDN "@scope" "pkg" "sub" "2.1.0"
              ltac:(by_evaluation) ltac:(by_evaluation) ltac:(by_evaluation)
              ltac:(discriminate)) as [Hplain Hscoped].
  split; [apply Hplain | apply Hscoped]; by_evaluation.
Defined.

Lemma lookupUrl_scope_without_name_witness :
  @lookupUrl builtCDN "@scope" "2.1.0" = "https://cdn.pika.dev/@scope/undefined@2.1.0".
Proof.
  apply (@lookupUrl_scope_without_name builtCDN "@scope" "2.1.0"); by_evaluation.
Defined.

Lemma lookupUrl_trailing_slash_witness :
  @lookupUrl builtCDN "pkg/" "2.1.0" = @lookupUrl builtCDN "pkg" "2.1.0".
Proof.
  apply (@lookupUrl_trailing_slash builtCDN "pkg" "2.1.0"); by_evaluation.
Defined.

Lemma legacy_fuel_enough_witness :
  @Legacy.resolveDependencyByName_fuel stuckCDN (@fetchCDNResource stuckCDN)
    consoleWrite consoleWrite 5 "foo" "^1.0.0" None true emptyWorld
  = Some (@Legacy.resolveDependencyByName stuckCDN (@fetchCDNResource stuckCDN)
            consoleWrite consoleWrite "foo" "^1.0.0" None true emptyWorld).
Proof.
  apply (@legacy_fuel_enough stuckCDN (@fetchCDNResource stuckCDN)
           consoleWrite consoleWrite 5).
  vm_compute. lia.
Defined.

Lemma legacy_resolveDependencyByName_agrees_witness :
  @Legacy.resolveDependencyByName buildingCDN (@fetchCDNResource buildingCDN)
    consoleWrite consoleWrite "@scope/pkg" "2.1.0" None true emptyWorld
  = @resolveDependencyByName buildingCDN "@scope/pkg" "2.1.0" None true emptyWorld.
Proof.
  apply (@legacy_resolveDependencyByName_agrees buildingCDN). right. by_evaluation.
Defined.

(** The map returned for the batch of "__proto__" and "a" has the entry of
    "a" alone. *)
Lemma generateImportMap_success_domain_witness :
  ∃ m w1,
    @generateImportMap builtCDN protoDependencies None oneThenOther emptyWorld
    = Some (Return m, w1)
    ∧ dom (imports m) = {["a"]}.
Proof.
  destruct (@generateImportMap builtCDN protoDependencies None oneThenOther emptyWorld)
    as [[[m|e] w1]|] eqn:E; [|vm_compute in E; discriminate..].
  exists m, w1. split; [reflexivity|].
  rewrite (@generateImportMap_success_domain builtCDN protoDependencies None
             oneThenOther emptyWorld m w1
             ltac:(refine (bool_decide_unpack _ _); vm_compute; exact I) E).
  by_evaluation.
Defined.

(** A batch of one, pinned to a URL that the cache holds, without a
    network: the map gives "foo" the [pinnedUrl] stored with its pin. *)
Lemma generateImportMap_offline_witness :
  ∃ m, @generateImportMap offline [("foo", "^1.0.0")] (Some fooLockfile)
         [Start; Resume 0; Resume 0; Resume 0] worldWithPin
       = Some (Return m, worldWithPin)
       ∧ imports m !! "foo" = Some (Some "https://cdn.pika.dev/pin/foo@v1.0.0-abc/foo.js").
Proof.
  destruct (@generateImportMap_offline offline [("foo", "^1.0.0")] (Some fooLockfile)
              [Start; Resume 0; Resume 0; Resume 0] worldWithPin)
    as (_ & _ & Hended).
  - refine (bool_decide_unpack _ _). vm_compute. exact I.
  - intros s v Hin. apply elem_of_cons in Hin as [Hin|Hin].
    + injection Hin as -> ->. eexists _, _. split; by_evaluation.
    + by apply elem_of_nil in Hin.
  - destruct (@generateImportMap offline [("foo", "^1.0.0")] (Some fooLockfile)
                [Start; Resume 0; Resume 0; Resume 0] worldWithPin)
      as [[c w1]|] eqn:E; [|vm_compute in E; discriminate].
    destruct (Hended c w1 eq_refl) as (-> & m & -> & Hall).
    exists m. split; [reflexivity|].
    destruct (Hall "foo" "^1.0.0" ltac:(left) ltac:(discriminate))
      as (url & entry & Hpin & Hc & ->).
    vm_compute in Hpin. injection Hpin as <-.
    vm_compute in Hc. injection Hc as <-. reflexivity.
Defined.

Lemma legacy_pin_witness :
  @Legacy.resolveDependencyByName offline (@fetchCDNResource offline)
    consoleWrite consoleWrite "foo" "1 2" (Some fooLockfile) true worldWithPin
  = @Legacy.resolveDependencyByUrl offline (@fetchCDNResource offline) consoleWrite
      "https://cdn.pika.dev/pin/foo@v1.0.0-abc/foo.js" worldWithPin.
Proof.
  apply (@legacy_pin offline). by_evaluation.
Defined.
